(** * sigmadsp.sigmastudio.header: packet headers exchanged with SigmaStudio

    A shallow embedding of [src/sigmadsp/sigmastudio/header.py]: the [Field]
    dataclass, the [PacketHeader] collection (an [OrderedDict] from field
    names to fields, kept sorted by offset), the class statement of
    [PacketHeaderGenerator] and the dispatch on the operation byte.

    Python integers are [Z], [bytes] and [bytearray] are [list byte], the
    [OrderedDict] is an association list (its order is observable), and a
    method that mutates the header and may raise returns the outcome together
    with the header it leaves behind. *)

From Stdlib Require Import ZArith List String Bool Lia Permutation Sorted.
From Stdlib Require Import Strings.Byte.
Import ListNotations.
Open Scope Z_scope.

Set Implicit Arguments.

(** ** Exceptions and outcomes *)

(** The exception classes raised in the module (and by the byte codec). *)
Inductive exn : Type :=
| ValueError
| MemoryError
| KeyError
| AssertionError
| OverflowError
| AttributeError.

Inductive result (A : Type) : Type :=
| Ok (a : A)
| Raise (e : exn).

Arguments Ok {A} a.
Arguments Raise {A} e.

Definition bind {A B : Type} (r : result A) (k : A -> result B) : result B :=
  match r with
  | Ok a => k a
  | Raise e => Raise e
  end.

Notation "x <- r ;; k" := (bind r (fun x => k))
  (at level 100, r at next level, right associativity).

(** ** OperationKey *)

(** [class OperationKey(Enum)]: a plain [Enum], not an [IntEnum]. *)
Inductive OperationKey : Type :=
| READ_REQUEST_KEY
| READ_RESPONSE_KEY
| WRITE_KEY.

(** The [.value] of a member. *)
Definition OperationKey_value (k : OperationKey) : Z :=
  match k with
  | READ_REQUEST_KEY => 0x0A
  | READ_RESPONSE_KEY => 0x0B
  | WRITE_KEY => 0x09
  end.

(** [OperationKey(v)]: lookup of a member by value; [ValueError] when no
    member has that value. *)
Definition OperationKey_call (v : Z) : result OperationKey :=
  if v =? OperationKey_value READ_REQUEST_KEY then Ok READ_REQUEST_KEY
  else if v =? OperationKey_value READ_RESPONSE_KEY then Ok READ_RESPONSE_KEY
  else if v =? OperationKey_value WRITE_KEY then Ok WRITE_KEY
  else Raise ValueError.

(** Members of an [Enum] are singletons: [==] on them is identity. *)
Definition OperationKey_is (a b : OperationKey) : bool :=
  match a, b with
  | READ_REQUEST_KEY, READ_REQUEST_KEY => true
  | READ_RESPONSE_KEY, READ_RESPONSE_KEY => true
  | WRITE_KEY, WRITE_KEY => true
  | _, _ => false
  end.

(** ** Field *)

Module Field.

(** The four dataclass fields of [Field].  The attribute [end] is set once
    by [__post_init__] from [offset] and [size], which nothing in the module
    assigns afterwards; it is the function [end_] here. *)
Record t : Type := mk {
  name : string;
  offset : Z;
  size : Z;
  value : Z
}.

(** [self.end = self.offset + self.size - 1]: the last byte index that is
    occupied by the field. *)
Definition end_ (self : t) : Z := offset self + size self - 1.

(** [Field(name, offset, size, value)]: the generated [__init__] followed
    by [__post_init__]. *)
Definition new (name : string) (offset size value : Z) : result t :=
  if size <? 0 then Raise ValueError
  else if offset <? 0 then Raise ValueError
  else Ok (mk name offset size value).

(** [__hash__]: the tuple that is hashed. *)
Definition hash_key (self : t) : string * Z * Z :=
  (name self, offset self, size self).

(** [__eq__] as [@dataclass] generates it (no [eq=False], no
    [compare=False] on any field): the tuples of all four dataclass fields
    are compared. *)
Definition eq (self other : t) : bool :=
  String.eqb (name self) (name other)
  && (offset self =? offset other)
  && (size self =? size other)
  && (value self =? value other).

(** [field.value = v]. *)
Definition set_value (self : t) (v : Z) : t :=
  mk (name self) (offset self) (size self) v.

End Field.

(** ** Python objects and [==] *)

(** The objects that the module compares with [==] or looks up in a dict. *)
Inductive pyobj : Type :=
| PyInt (z : Z)
| PyStr (s : string)
| PyKey (k : OperationKey)
| PyField (f : Field.t).

(** [a == b].  [int], [str], [Enum] and the dataclass [__eq__] all answer
    [NotImplemented] for an operand of another class, and the comparison then
    falls back to identity, which is false for objects of different classes. *)
Definition py_eq (a b : pyobj) : bool :=
  match a, b with
  | PyInt x, PyInt y => x =? y
  | PyStr s, PyStr t => String.eqb s t
  | PyKey k, PyKey k' => OperationKey_is k k'
  | PyField f, PyField g => Field.eq f g
  | _, _ => false
  end.

(** ** The ordered dict of fields *)

Definition odict : Type := list (string * Field.t).

(** [d[key]] for a [str] key. *)
Fixpoint dict_getitem (d : odict) (key : string) : result Field.t :=
  match d with
  | [] => Raise KeyError
  | (k, v) :: rest => if String.eqb key k then Ok v else dict_getitem rest key
  end.

(** [d[key] = v]: an existing key keeps its position, a new key goes last. *)
Fixpoint dict_setitem (d : odict) (key : string) (v : Field.t) : odict :=
  match d with
  | [] => [(key, v)]
  | (k, w) :: rest =>
      if String.eqb key k then (k, v) :: rest
      else (k, w) :: dict_setitem rest key v
  end.

(** [x in d] for an arbitrary object [x]: some key equals [x]. *)
Definition dict_contains (d : odict) (x : pyobj) : bool :=
  existsb (fun item => py_eq x (PyStr (fst item))) d.

(** [sorted(items, key=lambda item: item[1].offset)]: the sort is stable, so
    its result is the one of this insertion sort. *)
Fixpoint insert_by_offset (item : string * Field.t) (sorted : odict) : odict :=
  match sorted with
  | [] => [item]
  | x :: rest =>
      if Field.offset (snd item) <=? Field.offset (snd x) then item :: x :: rest
      else x :: insert_by_offset item rest
  end.

Fixpoint sorted_by_offset (items : odict) : odict :=
  match items with
  | [] => []
  | item :: rest => insert_by_offset item (sorted_by_offset rest)
  end.

(** ** The byte codec *)

(** Modelled from the spec: the module [sigmadsp.helper.conversion] that
    provides [bytes_to_int] and [int_to_bytes] is not among the sources.  The
    header code is written against this interface: [bytes_to_int data offset
    length] decodes an integer from a byte range, and [int_to_bytes value
    buffer offset length] writes an integer into the buffer (the buffer it
    leaves is the result) or raises. *)
Class Codec : Type := {
  bytes_to_int : list byte -> Z -> Z -> Z;
  int_to_bytes : Z -> list byte -> Z -> Z -> result (list byte)
}.

(** [len(x)]. *)
Definition len {A : Type} (l : list A) : Z := Z.of_nat (List.length l).

(** ** PacketHeader *)

Module PacketHeader.

(** The state of a header object: [self._fields]. *)
Definition t : Type := odict.

(** A stateful method: the outcome and the header left behind. *)
Definition method (A : Type) : Type := t -> result A * t.

(** [as_list]: [list(self._fields.values())]; [__iter__] yields the same
    sequence. *)
Definition as_list (self : t) : list Field.t := map snd self.

(** [size]: [sum([field.size for field in self])]. *)
Definition size (self : t) : Z :=
  fold_left Z.add (map Field.size (as_list self)) 0.

(** [zip(fields_entries, fields_entries[1:])]. *)
Definition adjacent (fields_entries : list Field.t) : list (Field.t * Field.t) :=
  combine fields_entries (tl fields_entries).

Fixpoint is_continuous_loop (pairs : list (Field.t * Field.t)) : bool :=
  match pairs with
  | [] => true
  | (field, next_field) :: rest =>
      if negb (Field.end_ field + 1 =? Field.offset next_field) then false
      else is_continuous_loop rest
  end.

(** [is_continuous]. *)
Definition is_continuous (self : t) : bool :=
  is_continuous_loop (adjacent (as_list self)).

Fixpoint check_for_overlaps_loop (pairs : list (Field.t * Field.t)) : result unit :=
  match pairs with
  | [] => Ok tt
  | (field, next_field) :: rest =>
      if negb (Field.end_ field <=? Field.offset next_field) then Raise MemoryError
      else check_for_overlaps_loop rest
  end.

(** [_check_for_overlaps]. *)
Definition _check_for_overlaps (self : t) : result unit :=
  check_for_overlaps_loop (adjacent (as_list self)).

(** [_sort_fields_by_offset]: the new value of [self._fields]. *)
Definition _sort_fields_by_offset (self : t) : t := sorted_by_offset self.

(** [__contains__]: [name in self._fields], for whatever object is tested. *)
Definition __contains__ (self : t) (name : pyobj) : bool :=
  dict_contains self name.

(** [add_field]. *)
Definition add_field (field : Field.t) : method unit := fun self =>
  if negb (__contains__ self (PyField field)) then
    let self1 := dict_setitem self (Field.name field) field in
    let self2 := _sort_fields_by_offset self1 in
    (_check_for_overlaps self2, self2)
  else (Ok tt, self).

(** [add]. *)
Definition add (name : string) (offset size value : Z) : method unit :=
  fun self =>
    match Field.new name offset size value with
    | Raise e => (Raise e, self)
    | Ok field => add_field field self
    end.

Fixpoint init_loop (fields : list Field.t) : method unit := fun self =>
  match fields with
  | [] => (Ok tt, self)
  | field :: rest =>
      match add_field field self with
      | (Ok _, self') => init_loop rest self'
      | (Raise e, self') => (Raise e, self')
      end
  end.

(** [PacketHeader(fields)]: [__init__]; the object exists only when no
    [add_field] raised. *)
Definition new (fields : list Field.t) : result t :=
  match init_loop fields [] with
  | (Ok _, self) => Ok self
  | (Raise e, _) => Raise e
  end.

(** [names]. *)
Definition names (self : t) : list string :=
  map Field.name (as_list self).

(** [__getitem__]. *)
Definition __getitem__ (self : t) (name : string) : result Field.t :=
  dict_getitem self name.

(** [__setitem__]. *)
Definition __setitem__ (name : string) (value : Z) : method unit :=
  fun self =>
    if negb (existsb (String.eqb name) (names self)) then
      (Raise ValueError, self)
    else
      match dict_getitem self name with
      | Raise e => (Raise e, self)
      | Ok field => (Ok tt, dict_setitem self name (Field.set_value field value))
      end.

(** [is_write_request]: the [int] stored in the field is compared with the
    enum member itself. *)
Definition is_write_request (self : t) : result bool :=
  field <- dict_getitem self "operation" ;;
  Ok (py_eq (PyInt (Field.value field)) (PyKey WRITE_KEY)).

(** [is_read_request]. *)
Definition is_read_request (self : t) : result bool :=
  field <- dict_getitem self "operation" ;;
  Ok (py_eq (PyInt (Field.value field)) (PyKey READ_REQUEST_KEY)).

(** [is_read_response]. *)
Definition is_read_response (self : t) : result bool :=
  field <- dict_getitem self "operation" ;;
  Ok (py_eq (PyInt (Field.value field)) (PyKey READ_RESPONSE_KEY)).

(** [is_safeload]: [and] evaluates its right operand only when the left one
    is true. *)
Definition is_safeload (self : t) : result bool :=
  w <- is_write_request self ;;
  if w then
    field <- dict_getitem self "safeload" ;;
    Ok (py_eq (PyInt (Field.value field)) (PyInt 1))
  else Ok false.

(** [carries_payload]: [or] evaluates its right operand only when the left
    one is false. *)
Definition carries_payload (self : t) : result bool :=
  w <- is_write_request self ;;
  if w then Ok true else is_read_response self.

Section WithCodec.
Context {codec : Codec}.

Fixpoint as_bytes_loop (fields : list Field.t) (buffer : list byte)
  : result (list byte) :=
  match fields with
  | [] => Ok buffer
  | field :: rest =>
      buffer' <- int_to_bytes (Field.value field) buffer (Field.offset field)
                   (Field.size field) ;;
      as_bytes_loop rest buffer'
  end.

(** [as_bytes]: the buffer starts as the empty [bytearray()]. *)
Definition as_bytes (self : t) : result (list byte) :=
  as_bytes_loop (as_list self) [].

(** The loop of [parse]: every field object gets its new value. *)
Definition parse_fields (data : list byte) (self : t) : t :=
  map (fun item =>
         (fst item,
          Field.set_value (snd item)
            (bytes_to_int data (Field.offset (snd item))
               (Field.size (snd item)))))
      self.

(** [parse]. *)
Definition parse (data : list byte) : method unit := fun self =>
  if negb (len data =? size self) then (Raise ValueError, self)
  else (Ok tt, parse_fields data self).

End WithCodec.

End PacketHeader.

(** ** PacketHeaderGenerator *)

(** What a [def] statement and the decorators leave in the namespace of a
    class: a function object, which carries the attribute
    [__isabstractmethod__] once [abstractmethod] has set it, or a
    [staticmethod] object around such an object, on which the attribute
    [__isabstractmethod__] is read-only. *)
Inductive method_object : Type :=
| Function (isabstractmethod : bool)
| StaticMethod (func : method_object).

(** [staticmethod(func)]. *)
Definition staticmethod (func : method_object) : method_object :=
  StaticMethod func.

(** [abstractmethod(funcobj)]: [funcobj.__isabstractmethod__ = True], then
    [funcobj] is returned; on a [staticmethod] object the assignment raises
    [AttributeError]. *)
Definition abstractmethod (funcobj : method_object) : result method_object :=
  match funcobj with
  | Function _ => Ok (Function true)
  | StaticMethod _ => Raise AttributeError
  end.

(** An instance of a concrete subclass, as far as the dispatch uses it: what
    its three factories do when they are called (build a header or raise). *)
Class Generator : Type := {
  new_write_header : result PacketHeader.t;
  new_read_request_header : result PacketHeader.t;
  new_read_response_header : result PacketHeader.t
}.

(** The object that the class statement binds to the name of the class: the
    three decorated factories and the function of the dispatch. *)
Record class_object : Type := {
  cls_new_write_header : method_object;
  cls_new_read_request_header : method_object;
  cls_new_read_response_header : method_object;
  cls_new_header_from_operation_byte :
    Generator -> list byte -> result PacketHeader.t
}.

Section Dispatch.
Context {codec : Codec}.

(** The body of [new_header_from_operation_byte] (the function that its
    [def] statement would create), on the instance [self]. *)
Definition new_header_from_operation_byte_body (self : Generator)
  (operation_byte : list byte) : result PacketHeader.t :=
  if negb (len operation_byte =? 1) then Raise AssertionError
  else
    operation_key <- OperationKey_call (bytes_to_int operation_byte 0 1) ;;
    if py_eq (PyKey operation_key) (PyKey READ_REQUEST_KEY) then
      new_read_request_header
    else if py_eq (PyKey operation_key) (PyKey READ_RESPONSE_KEY) then
      new_read_response_header
    else if py_eq (PyKey operation_key) (PyKey WRITE_KEY) then
      new_write_header
    else Raise ValueError.

(** [class PacketHeaderGenerator(ABC)]: the statements of the class body run
    in their order, and the decorators of a [def] apply from the bottom up,
    so that each factory is [abstractmethod(staticmethod(function))]; the
    class comes to exist when the body raised nothing. *)
Definition PacketHeaderGenerator : result class_object :=
  write <- abstractmethod (staticmethod (Function false)) ;;
  read_request <- abstractmethod (staticmethod (Function false)) ;;
  read_response <- abstractmethod (staticmethod (Function false)) ;;
  Ok {| cls_new_write_header := write;
        cls_new_read_request_header := read_request;
        cls_new_read_response_header := read_response;
        cls_new_header_from_operation_byte :=
          new_header_from_operation_byte_body |}.

(** [self.new_header_from_operation_byte(operation_byte)] in the program:
    the method of the class that the class statement left, if it left one. *)
Definition new_header_from_operation_byte (self : Generator)
  (operation_byte : list byte) : result PacketHeader.t :=
  cls <- PacketHeaderGenerator ;;
  cls_new_header_from_operation_byte cls self operation_byte.

End Dispatch.


(** ** The big-endian codec *)

Module BigEndian.

(** Modelled from the spec: [sigmadsp.helper.conversion] is not among the
    sources.  The spec describes a shared big-endian integer codec in which a
    field occupies the byte range [[offset, offset+size)] of the buffer, and
    leaves open what happens to a value that does not fit its width.  The
    model is the usual Python one: [int.from_bytes] of the slice
    [data[offset : offset + length]] for decoding, and the slice assignment
    [buffer[offset : offset + length] = value.to_bytes(length, "big")] for
    encoding, so that a value that does not fit raises [OverflowError]. *)
Definition byte_of_Z (z : Z) : byte :=
  match Byte.of_N (Z.to_N (z mod 256)) with
  | Some b => b
  | None => x00
  end.

Definition Z_of_byte (b : byte) : Z := Z.of_N (Byte.to_N b).

(** A slice bound clipped to a sequence of [n] items. *)
Definition slice_index (i n : Z) : Z :=
  if i <? 0 then Z.max 0 (i + n) else Z.min i n.

(** [l[start:stop]]. *)
Definition slice {A : Type} (l : list A) (start stop : Z) : list A :=
  let lo := slice_index start (len l) in
  let hi := slice_index stop (len l) in
  firstn (Z.to_nat (hi - lo)) (skipn (Z.to_nat lo) l).

(** [l[start:stop] = v]. *)
Definition slice_assign {A : Type} (l : list A) (start stop : Z) (v : list A)
  : list A :=
  let lo := slice_index start (len l) in
  let hi := Z.max lo (slice_index stop (len l)) in
  firstn (Z.to_nat lo) l ++ v ++ skipn (Z.to_nat hi) l.

(** The [n] low-order base-256 digits of [v], most significant first. *)
Fixpoint digits (n : nat) (v : Z) : list byte :=
  match n with
  | O => []
  | S k => digits k (v / 256) ++ [byte_of_Z (v mod 256)]
  end.

(** [value.to_bytes(length, "big")], unsigned. *)
Definition to_bytes (value length : Z) : result (list byte) :=
  if length <? 0 then Raise ValueError
  else if value <? 0 then Raise OverflowError
  else if 256 ^ length <=? value then Raise OverflowError
  else Ok (digits (Z.to_nat length) value).

(** [int.from_bytes(bs, "big")], unsigned. *)
Definition from_bytes (bs : list byte) : Z :=
  fold_left (fun acc b => acc * 256 + Z_of_byte b) bs 0.

(** Modelled from the spec: [bytes_to_int(data, offset, length)] decodes the
    big-endian integer held in [data[offset : offset + length]]. *)
Definition bytes_to_int (data : list byte) (offset length : Z) : Z :=
  from_bytes (slice data offset (offset + length)).

(** Modelled from the spec: [int_to_bytes(value, buffer, offset, length)]
    writes the [length] big-endian bytes of [value] into
    [buffer[offset : offset + length]]. *)
Definition int_to_bytes (value : Z) (buffer : list byte) (offset length : Z)
  : result (list byte) :=
  bs <- to_bytes value length ;;
  Ok (slice_assign buffer offset (offset + length) bs).

#[export] Instance codec : Codec := {
  bytes_to_int := bytes_to_int;
  int_to_bytes := int_to_bytes
}.

End BigEndian.

(** ** Headers used in the examples *)

Definition F (name : string) (offset size value : Z) : Field.t :=
  Field.mk name offset size value.

(** A header that holds exactly the given fields, in the given order. *)
Definition header_of (fields : list Field.t) : PacketHeader.t :=
  map (fun field => (Field.name field, field)) fields.

(** An instance with three different skeletons, as a concrete protocol
    variant would define them. *)
#[export] Instance example_generator : Generator := {
  new_write_header :=
    PacketHeader.new [F "operation" 0 1 0; F "safeload" 1 1 0;
                      F "address" 2 2 0];
  new_read_request_header :=
    PacketHeader.new [F "operation" 0 1 0; F "data_length" 1 4 0;
                      F "address" 5 2 0];
  new_read_response_header :=
    PacketHeader.new [F "operation" 0 1 0; F "success" 1 1 0]
}.

(** ** What the claims are compared with *)

(** The sum of the sizes of a list of fields. *)
Fixpoint sum_of_sizes (fields : list Field.t) : Z :=
  match fields with
  | [] => 0
  | field :: rest => Field.size field + sum_of_sizes rest
  end.

(** A relation holds of every two fields that follow each other in the list
    (the list of a header is in offset order). *)
Definition adjacent_pairs (R : Field.t -> Field.t -> Prop)
  (fields : list Field.t) : Prop :=
  forall (i : nat) (field next_field : Field.t),
    nth_error fields i = Some field ->
    nth_error fields (S i) = Some next_field ->
    R field next_field.

(** Every field ends right before the field that follows it. *)
Definition no_gaps (fields : list Field.t) : Prop :=
  adjacent_pairs
    (fun field next_field => Field.end_ field + 1 = Field.offset next_field)
    fields.

(** Every field ends at or before the offset of the field that follows it. *)
Definition ends_within_next (fields : list Field.t) : Prop :=
  adjacent_pairs
    (fun field next_field => Field.end_ field <= Field.offset next_field)
    fields.

(** The byte position [pos] lies in the range of the field. *)
Definition occupies (field : Field.t) (pos : Z) : Prop :=
  Field.offset field <= pos < Field.offset field + Field.size field.

(** Ascending offsets. *)
Definition offset_le (a b : Field.t) : Prop := Field.offset a <= Field.offset b.

(** Strictly ascending offsets. *)
Definition offset_lt (a b : Field.t) : Prop := Field.offset a < Field.offset b.

(** The end of the earlier field, the last byte that it occupies, counted
    from its offset and its size, plus one is the offset of the later one. *)
Definition ends_right_before (earlier later : Field.t) : Prop :=
  (Field.offset earlier + Field.size earlier - 1) + 1 = Field.offset later.

(** The keys of the dict are pairwise different, as in every dict. *)
Definition unique_keys (d : odict) : Prop := NoDup (map fst d).

(** The first field, if there is one, starts at the byte position [start]. *)
Definition starts_at (start : Z) (fields : list Field.t) : Prop :=
  match fields with
  | [] => True
  | field :: _ => Field.offset field = start
  end.

(** The bytes of a field on the wire of the big-endian codec. *)
Definition wire (field : Field.t) : list byte :=
  BigEndian.digits (Z.to_nat (Field.size field)) (Field.value field).

(** The value fits the unsigned width of the field. *)
Definition value_fits (field : Field.t) : Prop :=
  0 <= Field.value field < 256 ^ Field.size field.

(** The checks of [__post_init__] pass. *)
Definition constructible (field : Field.t) : Prop :=
  0 <= Field.size field /\ 0 <= Field.offset field.

(** Every key of the dict is the name of the field stored under it, as
    [add_field] stores it. *)
Definition keys_are_names (d : odict) : Prop :=
  Forall (fun item => fst item = Field.name (snd item)) d.

(** The layout of a header: the identity triples of its fields, in order. *)
Definition layout (self : PacketHeader.t) : list (string * Z * Z) :=
  map Field.hash_key (PacketHeader.as_list self).

(** The items of a dict whose field is at the offset [o], in order. *)
Definition at_offset (o : Z) (d : odict) : odict :=
  filter (fun item => Field.offset (snd item) =? o) d.

(** The headers that a program can hold: the empty header of [__init__],
    changed by any sequence of [add_field], [add], [parse] and
    [__setitem__] calls, whether they raise or not. *)
Inductive reachable (codec : Codec) : PacketHeader.t -> Prop :=
| reachable_empty : reachable codec []
| reachable_add_field (field : Field.t) (self : PacketHeader.t) :
    reachable codec self ->
    reachable codec (snd (PacketHeader.add_field field self))
| reachable_add (name : string) (offset size value : Z)
    (self : PacketHeader.t) :
    reachable codec self ->
    reachable codec (snd (PacketHeader.add name offset size value self))
| reachable_parse (data : list byte) (self : PacketHeader.t) :
    reachable codec self ->
    reachable codec (snd (PacketHeader.parse data self))
| reachable_setitem (name : string) (value : Z) (self : PacketHeader.t) :
    reachable codec self ->
    reachable codec (snd (PacketHeader.__setitem__ name value self)).

(** ** Lemmas on the ordered dict and on sorting *)

Lemma insert_by_offset_perm (item : string * Field.t) (l : odict) :
  Permutation (item :: l) (insert_by_offset item l).
Proof.
  induction l as [|x rest IH]; simpl.
  - reflexivity.
  - destruct (Field.offset (snd item) <=? Field.offset (snd x)).
    + reflexivity.
    + rewrite perm_swap. now apply perm_skip.
Qed.

Lemma sorted_by_offset_perm (l : odict) : Permutation l (sorted_by_offset l).
Proof.
  induction l as [|x rest IH]; simpl.
  - constructor.
  - rewrite <- insert_by_offset_perm. now apply perm_skip.
Qed.

Lemma insert_by_offset_sorted (item : string * Field.t) (l : odict) :
  Sorted offset_le (map snd l) ->
  Sorted offset_le (map snd (insert_by_offset item l)).
Proof.
  induction l as [|x rest IH]; simpl; intros Hs.
  - repeat constructor.
  - destruct (Field.offset (snd item) <=? Field.offset (snd x)) eqn:E; simpl.
    + constructor; [exact Hs|]. constructor. unfold offset_le. lia.
    + inversion Hs as [|? ? Hrest Hhd]; subst.
      constructor; [now apply IH|].
      destruct rest as [|y rest']; simpl in *.
      * constructor. unfold offset_le. lia.
      * destruct (Field.offset (snd item) <=? Field.offset (snd y)); simpl.
        -- constructor. unfold offset_le. lia.
        -- inversion Hhd; subst. now constructor.
Qed.

Lemma sorted_by_offset_sorted (l : odict) :
  Sorted offset_le (map snd (sorted_by_offset l)).
Proof.
  induction l as [|x rest IH]; simpl.
  - constructor.
  - now apply insert_by_offset_sorted.
Qed.

Lemma dict_setitem_keys (d : odict) (key : string) (v : Field.t) :
  map fst (dict_setitem d key v) =
  if existsb (String.eqb key) (map fst d) then map fst d
  else map fst d ++ [key].
Proof.
  induction d as [|[k w] rest IH]; simpl; [reflexivity|].
  destruct (String.eqb key k); simpl; [reflexivity|].
  rewrite IH. now destruct (existsb (String.eqb key) (map fst rest)).
Qed.

Lemma existsb_eqb_In (key : string) (l : list string) :
  existsb (String.eqb key) l = true <-> In key l.
Proof.
  rewrite existsb_exists. split.
  - intros [x [Hin Heq]]. apply String.eqb_eq in Heq. now subst.
  - intros Hin. exists key. split; [exact Hin|apply String.eqb_refl].
Qed.

Lemma dict_setitem_unique (d : odict) (key : string) (v : Field.t) :
  unique_keys d -> unique_keys (dict_setitem d key v).
Proof.
  unfold unique_keys. intros Hd. rewrite dict_setitem_keys.
  destruct (existsb (String.eqb key) (map fst d)) eqn:E; [exact Hd|].
  apply NoDup_app; [exact Hd|repeat constructor; simpl; tauto|].
  intros x Hx [Hk|[]]. subst x.
  apply existsb_eqb_In in Hx. congruence.
Qed.

Lemma dict_setitem_In (d : odict) (key : string) (v : Field.t) :
  In (key, v) (dict_setitem d key v).
Proof.
  induction d as [|[k w] rest IH]; simpl; [now left|].
  destruct (String.eqb key k) eqn:E.
  - left. apply String.eqb_eq in E. now subst.
  - now right.
Qed.

Lemma dict_getitem_In (d : odict) (key : string) (v : Field.t) :
  unique_keys d -> In (key, v) d -> dict_getitem d key = Ok v.
Proof.
  unfold unique_keys.
  induction d as [|[k w] rest IH]; simpl; intros Hd Hin; [contradiction|].
  inversion Hd as [|? ? Hnot Hrest]; subst.
  destruct Hin as [Heq|Hin].
  - inversion Heq; subst. now rewrite String.eqb_refl.
  - destruct (String.eqb key k) eqn:E.
    + apply String.eqb_eq in E. subst k. exfalso. apply Hnot.
      change key with (fst (key, v)). now apply in_map.
    + now apply IH.
Qed.

Lemma sorted_by_offset_unique (d : odict) :
  unique_keys d -> unique_keys (sorted_by_offset d).
Proof.
  unfold unique_keys. intros Hd.
  eapply Permutation_NoDup; [|exact Hd].
  apply Permutation_map, sorted_by_offset_perm.
Qed.

Lemma dict_getitem_missing (d : odict) (key : string) :
  ~ In key (map fst d) -> dict_getitem d key = Raise KeyError.
Proof.
  induction d as [|[k w] rest IH]; simpl; intros Hnot; [reflexivity|].
  destruct (String.eqb key k) eqn:E.
  - apply String.eqb_eq in E. subst. tauto.
  - apply IH. tauto.
Qed.

(** A [Field] object is never equal to a [str] key. *)
Lemma dict_contains_field (d : odict) (field : Field.t) :
  dict_contains d (PyField field) = false.
Proof.
  unfold dict_contains. induction d as [|item rest IH]; simpl; [reflexivity|].
  exact IH.
Qed.

Lemma adjacent_pairs_cons (R : Field.t -> Field.t -> Prop)
  (a b : Field.t) (rest : list Field.t) :
  adjacent_pairs R (a :: b :: rest) <-> R a b /\ adjacent_pairs R (b :: rest).
Proof.
  unfold adjacent_pairs. split.
  - intros H. split.
    + now apply (H O).
    + intros i f g Hf Hg. now apply (H (S i)).
  - intros [Hab H] [|i] f g Hf Hg; simpl in *.
    + congruence.
    + now apply (H i).
Qed.

Lemma adjacent_pairs_nil (R : Field.t -> Field.t -> Prop) :
  adjacent_pairs R [].
Proof. intros [|i] f g Hf Hg; simpl in *; discriminate. Qed.

Lemma adjacent_pairs_single (R : Field.t -> Field.t -> Prop) (a : Field.t) :
  adjacent_pairs R [a].
Proof. intros [|[|i]] f g Hf Hg; simpl in *; discriminate. Qed.

Lemma is_continuous_loop_spec (fields : list Field.t) :
  PacketHeader.is_continuous_loop (PacketHeader.adjacent fields) = true
  <-> no_gaps fields.
Proof.
  unfold no_gaps.
  induction fields as [|a [|b rest] IH].
  - simpl. split; [intros _; apply adjacent_pairs_nil|reflexivity].
  - simpl. split; [intros _; apply adjacent_pairs_single|reflexivity].
  - rewrite adjacent_pairs_cons.
    change (PacketHeader.adjacent (a :: b :: rest))
      with ((a, b) :: PacketHeader.adjacent (b :: rest)).
    cbn [PacketHeader.is_continuous_loop].
    destruct (Field.end_ a + 1 =? Field.offset b) eqn:E; simpl.
    + apply Z.eqb_eq in E. rewrite IH. tauto.
    + apply Z.eqb_neq in E. split; [discriminate|tauto].
Qed.

Lemma check_for_overlaps_loop_spec (fields : list Field.t) :
  PacketHeader.check_for_overlaps_loop (PacketHeader.adjacent fields) = Ok tt
  <-> ends_within_next fields.
Proof.
  unfold ends_within_next.
  induction fields as [|a [|b rest] IH].
  - simpl. split; [intros _; apply adjacent_pairs_nil|reflexivity].
  - simpl. split; [intros _; apply adjacent_pairs_single|reflexivity].
  - rewrite adjacent_pairs_cons.
    change (PacketHeader.adjacent (a :: b :: rest))
      with ((a, b) :: PacketHeader.adjacent (b :: rest)).
    cbn [PacketHeader.check_for_overlaps_loop].
    destruct (Field.end_ a <=? Field.offset b) eqn:E; simpl.
    + apply Z.leb_le in E. rewrite IH. tauto.
    + apply Z.leb_gt in E. split; [discriminate|]. intros [H _]. lia.
Qed.

Lemma check_for_overlaps_loop_raises (pairs : list (Field.t * Field.t)) :
  PacketHeader.check_for_overlaps_loop pairs = Ok tt \/
  PacketHeader.check_for_overlaps_loop pairs = Raise MemoryError.
Proof.
  induction pairs as [|[a b] rest IH]; simpl; [now left|].
  destruct (Field.end_ a <=? Field.offset b); simpl; [exact IH|now right].
Qed.

Lemma fold_left_add_sizes (fields : list Field.t) (acc : Z) :
  fold_left Z.add (map Field.size fields) acc = acc + sum_of_sizes fields.
Proof.
  revert acc. induction fields as [|f rest IH]; simpl; intros acc.
  - lia.
  - rewrite IH. lia.
Qed.

(** [add_field] always takes the branch that stores, sorts and checks. *)
Lemma add_field_unfold (field : Field.t) (self : PacketHeader.t) :
  PacketHeader.add_field field self =
  (PacketHeader._check_for_overlaps
     (sorted_by_offset (dict_setitem self (Field.name field) field)),
   sorted_by_offset (dict_setitem self (Field.name field) field)).
Proof.
  unfold PacketHeader.add_field, PacketHeader.__contains__.
  now rewrite dict_contains_field.
Qed.

(** After [add_field], whether it raised or not, the fields are in offset
    order and the keys are still pairwise different. *)
Lemma add_field_sorted (field : Field.t) (self : PacketHeader.t) :
  Sorted offset_le
    (PacketHeader.as_list (snd (PacketHeader.add_field field self))).
Proof.
  rewrite add_field_unfold. simpl. apply sorted_by_offset_sorted.
Qed.

Lemma add_field_unique (field : Field.t) (self : PacketHeader.t) :
  unique_keys self ->
  unique_keys (snd (PacketHeader.add_field field self)).
Proof.
  intros H. rewrite add_field_unfold. simpl.
  now apply sorted_by_offset_unique, dict_setitem_unique.
Qed.

Lemma init_loop_invariant (fields : list Field.t) (self : PacketHeader.t) :
  unique_keys self ->
  Sorted offset_le (PacketHeader.as_list self) ->
  unique_keys (snd (PacketHeader.init_loop fields self)) /\
  Sorted offset_le
    (PacketHeader.as_list (snd (PacketHeader.init_loop fields self))).
Proof.
  revert self. induction fields as [|f rest IH]; simpl; intros self Hu Hs.
  - now split.
  - pose proof (add_field_unique f Hu) as Hu'.
    pose proof (add_field_sorted f self) as Hs'.
    destruct (PacketHeader.add_field f self) as [[[]|e] self']; simpl in *.
    + now apply IH.
    + now split.
Qed.

(** A header that was constructed has pairwise different keys, is in offset
    order, and passed the overlap check of the code. *)
Lemma new_invariant (fields : list Field.t) (self : PacketHeader.t) :
  PacketHeader.new fields = Ok self ->
  unique_keys self /\ Sorted offset_le (PacketHeader.as_list self).
Proof.
  unfold PacketHeader.new. intros H.
  assert (Hinv := @init_loop_invariant fields [] (NoDup_nil _) (Sorted_nil _)).
  destruct (PacketHeader.init_loop fields []) as [[[]|e] self'];
    simpl in *; [|discriminate].
  now inversion H; subst.
Qed.

(** ** Field equality *)

(** C5, as amended: two fields are equal iff their names, offsets, sizes and
    values all match (the [__eq__] that [@dataclass] generates compares every
    dataclass field); the value is left out of the hash only, which is
    computed from the name, the offset and the size. *)
Theorem Field_eq_compares_all_four (f g : Field.t) :
  (Field.eq f g = true <->
   Field.name f = Field.name g /\ Field.offset f = Field.offset g /\
   Field.size f = Field.size g /\ Field.value f = Field.value g)
  /\
  (Field.hash_key f = Field.hash_key g <->
   Field.name f = Field.name g /\ Field.offset f = Field.offset g /\
   Field.size f = Field.size g).
Proof.
  split.
  - unfold Field.eq. rewrite !andb_true_iff, String.eqb_eq, !Z.eqb_eq. tauto.
  - unfold Field.hash_key. split.
    + intros H. inversion H. tauto.
    + intros (Hn & Ho & Hs). now rewrite Hn, Ho, Hs.
Qed.

(** C5, as stated, fails: two fields with the same name, offset and size and
    with the values 0 and 5 have the same identity triple and are not
    equal. *)
Lemma Field_eq_same_layout_other_value :
  ~ (Field.eq (F "operation" 0 1 0) (F "operation" 0 1 5) = true <->
     Field.hash_key (F "operation" 0 1 0) = Field.hash_key (F "operation" 0 1 5)).
Proof.
  intros [_ H]. specialize (H eq_refl). discriminate H.
Qed.

(** ** The predicates on the operation *)

(** The stored value is an [int] and is compared with an enum member: the
    comparison is false whatever the value is. *)
Lemma is_write_request_of_int (self : PacketHeader.t) (field : Field.t) :
  PacketHeader.__getitem__ self "operation" = Ok field ->
  PacketHeader.is_write_request self = Ok false /\
  PacketHeader.is_read_request self = Ok false /\
  PacketHeader.is_read_response self = Ok false /\
  PacketHeader.is_safeload self = Ok false /\
  PacketHeader.carries_payload self = Ok false.
Proof.
  unfold PacketHeader.__getitem__, PacketHeader.is_safeload,
    PacketHeader.carries_payload, PacketHeader.is_write_request,
    PacketHeader.is_read_request, PacketHeader.is_read_response.
  intros H. rewrite H. simpl. repeat split; reflexivity.
Qed.

(** C3, at a header with [operation = 0x09] and [safeload = 1]: the three
    predicates return [False], where the claim says [True]. *)
Theorem predicates_on_write_safeload_header :
  let self := header_of [F "operation" 0 1 0x09; F "safeload" 1 1 1] in
  PacketHeader.new [F "operation" 0 1 0x09; F "safeload" 1 1 1] = Ok self /\
  PacketHeader.is_write_request self = Ok false /\
  PacketHeader.is_safeload self = Ok false /\
  PacketHeader.carries_payload self = Ok false.
Proof.
  repeat split; reflexivity.
Qed.

(** Without a field named [operation] the five predicates raise [KeyError]. *)
Lemma predicates_require_operation (self : PacketHeader.t) :
  ~ In "operation"%string (map fst self) ->
  PacketHeader.is_write_request self = Raise KeyError /\
  PacketHeader.is_read_request self = Raise KeyError /\
  PacketHeader.is_read_response self = Raise KeyError /\
  PacketHeader.is_safeload self = Raise KeyError /\
  PacketHeader.carries_payload self = Raise KeyError.
Proof.
  intros H. apply dict_getitem_missing in H.
  unfold PacketHeader.is_safeload, PacketHeader.carries_payload,
    PacketHeader.is_write_request, PacketHeader.is_read_request,
    PacketHeader.is_read_response.
  rewrite H. simpl. repeat split; reflexivity.
Qed.

(** C10, at a header with [operation = 0x09] and no field [safeload]:
    [is_safeload] returns [False], where the claim says that it raises a
    lookup error. *)
Theorem is_safeload_without_safeload_field :
  let self := header_of [F "operation" 0 1 0x09] in
  PacketHeader.new [F "operation" 0 1 0x09] = Ok self /\
  PacketHeader.__contains__ self (PyStr "safeload") = false /\
  PacketHeader.__getitem__ self "safeload" = Raise KeyError /\
  PacketHeader.is_safeload self = Ok false.
Proof.
  repeat split; reflexivity.
Qed.

(** ** Adding fields *)

(** C1, at a header that holds (operation, 0, 1) with value 9: adding a field
    with the same name, offset and size and the value 0, through [add_field]
    or through [add], overwrites the stored value, where the claim says that
    it is left unchanged. *)
Theorem add_field_same_identity_overwrites :
  let self := header_of [F "operation" 0 1 9] in
  let field := F "operation" 0 1 0 in
  PacketHeader.new [F "operation" 0 1 9] = Ok self /\
  Field.hash_key field = Field.hash_key (F "operation" 0 1 9) /\
  PacketHeader.add_field field self = (Ok tt, header_of [field]) /\
  PacketHeader.add "operation" 0 1 0 self = (Ok tt, header_of [field]) /\
  PacketHeader.__getitem__ self "operation" = Ok (F "operation" 0 1 9) /\
  PacketHeader.__getitem__ (header_of [field]) "operation" =
    Ok (F "operation" 0 1 0).
Proof.
  repeat split; reflexivity.
Qed.

(** Whether the overlap check raises or not, the header left by [add_field]
    holds the new field under its name. *)
Lemma add_field_getitem (self : PacketHeader.t) (field : Field.t) :
  unique_keys self ->
  PacketHeader.__getitem__ (snd (PacketHeader.add_field field self))
    (Field.name field) = Ok field.
Proof.
  intros Hu. rewrite add_field_unfold. simpl.
  unfold PacketHeader.__getitem__. apply dict_getitem_In.
  - now apply sorted_by_offset_unique, dict_setitem_unique.
  - eapply Permutation_in; [apply sorted_by_offset_perm|].
    apply dict_setitem_In.
Qed.

(** C9: for every header (a dict: its keys are pairwise different) the
    membership test of [add_field] is false for every field object, and when
    [add_field] raises no error the field stored under the name of the new
    field is the new field, whatever was stored under that name before. *)
Theorem add_field_stores_field (self : PacketHeader.t) (field : Field.t) :
  unique_keys self ->
  fst (PacketHeader.add_field field self) = Ok tt ->
  PacketHeader.__contains__ self (PyField field) = false /\
  PacketHeader.__getitem__ (snd (PacketHeader.add_field field self))
    (Field.name field) = Ok field.
Proof.
  intros Hu _. split.
  - apply dict_contains_field.
  - now apply add_field_getitem.
Qed.

(** A field named [safeload] replaces the stored one of another layout and
    value. *)
Lemma add_field_stores_field_witness :
  let self := header_of [F "operation" 0 1 9; F "safeload" 1 1 1] in
  let field := F "safeload" 4 2 7 in
  unique_keys self /\
  fst (PacketHeader.add_field field self) = Ok tt /\
  PacketHeader.__getitem__ self "safeload" = Ok (F "safeload" 1 1 1) /\
  PacketHeader.__contains__ self (PyField field) = false /\
  PacketHeader.__getitem__ (snd (PacketHeader.add_field field self))
    "safeload" = Ok field.
Proof.
  assert (Hu : unique_keys
                 (header_of [F "operation" 0 1 9; F "safeload" 1 1 1])).
  { repeat constructor; simpl; intuition discriminate. }
  split; [exact Hu|]. split; [reflexivity|]. split; [reflexivity|].
  exact (add_field_stores_field (F "safeload" 4 2 7) Hu eq_refl).
Defined.

(** What the overlap check guarantees: after an [add_field] that raised no
    error every field ends at or before the offset of the next one, the
    fields being in offset order. *)
Lemma add_field_ends_within_next (self : PacketHeader.t) (field : Field.t) :
  fst (PacketHeader.add_field field self) = Ok tt ->
  ends_within_next
    (PacketHeader.as_list (snd (PacketHeader.add_field field self))).
Proof.
  rewrite add_field_unfold. simpl. apply check_for_overlaps_loop_spec.
Qed.

(** C2, at the fields (operation, 0, 4) and (safeload, 3, 1): both occupy
    byte 3, the end of the first is the offset of the second, and the header
    is built without any error, where the claim says that the insertion is
    rejected. *)
Theorem overlap_check_accepts_shared_byte :
  let a := F "operation" 0 4 0 in
  let b := F "safeload" 3 1 0 in
  occupies a 3 /\ occupies b 3 /\
  Field.end_ a = Field.offset b /\
  PacketHeader.add_field b (header_of [a]) = (Ok tt, header_of [a; b]) /\
  PacketHeader.new [a; b] = Ok (header_of [a; b]).
Proof.
  unfold occupies. simpl. repeat split; try lia; reflexivity.
Qed.

(** ** Dispatch on the operation byte *)

Lemma OperationKey_call_spec (v : Z) :
  (v = 0x0A -> OperationKey_call v = Ok READ_REQUEST_KEY) /\
  (v = 0x0B -> OperationKey_call v = Ok READ_RESPONSE_KEY) /\
  (v = 0x09 -> OperationKey_call v = Ok WRITE_KEY) /\
  (v <> 0x0A -> v <> 0x0B -> v <> 0x09 -> OperationKey_call v = Raise ValueError).
Proof.
  unfold OperationKey_call. simpl.
  repeat split; intros; subst; try reflexivity.
  destruct (Z.eqb_spec v 10); [contradiction|].
  destruct (Z.eqb_spec v 11); [contradiction|].
  destruct (Z.eqb_spec v 9); [contradiction|reflexivity].
Qed.

(** What the body of the dispatch does on an instance: an input that is not
    one byte long fails the assertion; a one-byte input that decodes to 0x0A,
    0x0B or 0x09 gives what the read-request, read-response or write factory
    returns; a one-byte input that decodes to any other value raises
    [ValueError]. *)
Lemma dispatch_body_on_operation_byte
  (codec : Codec) (self : Generator) (operation_byte : list byte) :
  (len operation_byte <> 1 ->
   new_header_from_operation_byte_body self operation_byte =
   Raise AssertionError)
  /\
  (len operation_byte = 1 ->
   (bytes_to_int operation_byte 0 1 = 0x0A ->
    new_header_from_operation_byte_body self operation_byte =
    new_read_request_header)
   /\
   (bytes_to_int operation_byte 0 1 = 0x0B ->
    new_header_from_operation_byte_body self operation_byte =
    new_read_response_header)
   /\
   (bytes_to_int operation_byte 0 1 = 0x09 ->
    new_header_from_operation_byte_body self operation_byte =
    new_write_header)
   /\
   (bytes_to_int operation_byte 0 1 <> 0x0A ->
    bytes_to_int operation_byte 0 1 <> 0x0B ->
    bytes_to_int operation_byte 0 1 <> 0x09 ->
    new_header_from_operation_byte_body self operation_byte =
    Raise ValueError)).
Proof.
  unfold new_header_from_operation_byte_body.
  destruct (OperationKey_call_spec (bytes_to_int operation_byte 0 1))
    as (Hrq & Hrs & Hw & Hother).
  split.
  - intros Hlen. apply Z.eqb_neq in Hlen. now rewrite Hlen.
  - intros Hlen. apply Z.eqb_eq in Hlen. rewrite Hlen. simpl.
    repeat split.
    + intros H. now rewrite (Hrq H).
    + intros H. now rewrite (Hrs H).
    + intros H. now rewrite (Hw H).
    + intros H1 H2 H3. now rewrite (Hother H1 H2 H3).
Qed.

(** With the two decorators in the other order, [staticmethod] on top of
    [abstractmethod], the decoration of a factory raises nothing. *)
Lemma staticmethod_on_abstractmethod :
  (funcobj <- abstractmethod (Function false) ;; Ok (staticmethod funcobj)) =
  Ok (StaticMethod (Function true)).
Proof. reflexivity. Qed.

(** C6, at every instance and every input, the one-byte input 0x0A
    included: the class statement of [PacketHeaderGenerator] raises
    [AttributeError] at the first factory, which is decorated with
    [abstractmethod] on top of [staticmethod]; the class and its method
    [new_header_from_operation_byte] never come to exist, and a call of the
    dispatch has nothing to return, where the claim says that it returns the
    header of the matching factory. *)
Theorem new_header_from_operation_byte_never_defined
  (codec : Codec) (self : Generator) (operation_byte : list byte) :
  abstractmethod (staticmethod (Function false)) = Raise AttributeError /\
  @PacketHeaderGenerator codec = Raise AttributeError /\
  new_header_from_operation_byte self operation_byte = Raise AttributeError /\
  @new_header_from_operation_byte codec self [x0a] = Raise AttributeError.
Proof.
  repeat split; reflexivity.
Qed.

(** ** Parsing *)

Lemma parse_fields_keys (codec : Codec) (data : list byte)
  (self : PacketHeader.t) :
  map fst (PacketHeader.parse_fields data self) = map fst self.
Proof.
  unfold PacketHeader.parse_fields. rewrite map_map. reflexivity.
Qed.

Lemma parse_fields_as_list (codec : Codec) (data : list byte)
  (self : PacketHeader.t) :
  PacketHeader.as_list (PacketHeader.parse_fields data self) =
  map (fun field =>
         Field.set_value field
           (bytes_to_int data (Field.offset field) (Field.size field)))
      (PacketHeader.as_list self).
Proof.
  unfold PacketHeader.parse_fields, PacketHeader.as_list.
  now rewrite !map_map.
Qed.

(** C7: on a buffer whose length is not the size of the header [parse] raises
    [ValueError] and leaves the header as it was; on a buffer of exactly that
    length it succeeds, keeps the names, and gives every field the value
    decoded from the byte range of that field. *)
Theorem parse_enforces_length
  (codec : Codec) (self : PacketHeader.t) (data : list byte) :
  (len data <> PacketHeader.size self ->
   PacketHeader.parse data self = (Raise ValueError, self))
  /\
  (len data = PacketHeader.size self ->
   exists self' : PacketHeader.t,
     PacketHeader.parse data self = (Ok tt, self') /\
     map fst self' = map fst self /\
     PacketHeader.as_list self' =
     map (fun field =>
            Field.set_value field
              (bytes_to_int data (Field.offset field) (Field.size field)))
         (PacketHeader.as_list self)).
Proof.
  unfold PacketHeader.parse. split; intros Hlen.
  - apply Z.eqb_neq in Hlen. now rewrite Hlen.
  - apply Z.eqb_eq in Hlen. rewrite Hlen. simpl.
    exists (PacketHeader.parse_fields data self).
    split; [reflexivity|]. split.
    + apply parse_fields_keys.
    + apply parse_fields_as_list.
Qed.

(** A header of size 8 on a buffer of 7 bytes and on a buffer of 8 bytes. *)
Lemma parse_enforces_length_witness :
  let self :=
    header_of [F "operation" 0 1 0; F "data_length" 1 4 0;
               F "address" 5 2 0; F "success" 7 1 0] in
  let short := [x0a; x00; x00; x01; x00; x12; x34] in
  let exact := [x0a; x00; x00; x01; x00; x12; x34; x01] in
  PacketHeader.size self = 8 /\
  @PacketHeader.parse BigEndian.codec short self = (Raise ValueError, self) /\
  exists self' : PacketHeader.t,
    @PacketHeader.parse BigEndian.codec exact self = (Ok tt, self') /\
    PacketHeader.as_list self' =
      [F "operation" 0 1 0x0A; F "data_length" 1 4 256;
       F "address" 5 2 0x1234; F "success" 7 1 1].
Proof.
  intros self short exact.
  split; [reflexivity|]. split.
  - destruct (parse_enforces_length BigEndian.codec self short) as [H _].
    apply H. discriminate.
  - destruct (parse_enforces_length BigEndian.codec self exact) as [_ H].
    destruct (H eq_refl) as (self' & Hparse & _ & Hlist).
    exists self'. split; [exact Hparse|exact Hlist].
Defined.

(** ** The big-endian codec: slices and digits *)

Lemma len_app {A : Type} (l l' : list A) : len (l ++ l') = len l + len l'.
Proof. unfold len. rewrite length_app. lia. Qed.

Lemma len_nonneg {A : Type} (l : list A) : 0 <= len l.
Proof. unfold len. lia. Qed.

Lemma slice_assign_at_end {A : Type} (buffer v : list A) (n : Z) :
  0 <= n ->
  BigEndian.slice_assign buffer (len buffer) (len buffer + n) v = buffer ++ v.
Proof.
  intros Hn. pose proof (len_nonneg buffer) as Hl.
  unfold BigEndian.slice_assign, BigEndian.slice_index.
  destruct (Z.ltb_spec (len buffer) 0); [lia|].
  destruct (Z.ltb_spec (len buffer + n) 0); [lia|].
  replace (Z.min (len buffer) (len buffer)) with (len buffer) by lia.
  replace (Z.max (len buffer) (Z.min (len buffer + n) (len buffer)))
    with (len buffer) by lia.
  unfold len. rewrite Nat2Z.id, firstn_all, skipn_all.
  now rewrite app_nil_r.
Qed.

Lemma slice_middle {A : Type} (pre mid post : list A) :
  BigEndian.slice (pre ++ mid ++ post) (len pre) (len pre + len mid) = mid.
Proof.
  pose proof (len_nonneg pre). pose proof (len_nonneg mid).
  pose proof (len_nonneg post).
  unfold BigEndian.slice, BigEndian.slice_index.
  rewrite !len_app.
  destruct (Z.ltb_spec (len pre) 0); [lia|].
  destruct (Z.ltb_spec (len pre + len mid) 0); [lia|].
  replace (Z.min (len pre) (len pre + (len mid + len post)))
    with (len pre) by lia.
  replace (Z.min (len pre + len mid) (len pre + (len mid + len post)))
    with (len pre + len mid) by lia.
  replace (len pre + len mid - len pre) with (len mid) by lia.
  unfold len. rewrite !Nat2Z.id.
  rewrite skipn_app, skipn_all, Nat.sub_diag. simpl.
  rewrite firstn_app, firstn_all, Nat.sub_diag. simpl.
  now rewrite app_nil_r.
Qed.

Lemma Z_of_byte_of_Z (z : Z) :
  BigEndian.Z_of_byte (BigEndian.byte_of_Z z) = z mod 256.
Proof.
  pose proof (Z.mod_pos_bound z 256 ltac:(lia)) as Hb.
  unfold BigEndian.Z_of_byte, BigEndian.byte_of_Z.
  destruct (Byte.of_N (Z.to_N (z mod 256))) as [b|] eqn:E.
  - apply Byte.to_of_N in E. rewrite E. lia.
  - apply Byte.of_N_None_iff in E. lia.
Qed.

Lemma from_bytes_snoc (bs : list byte) (b : byte) :
  BigEndian.from_bytes (bs ++ [b]) =
  BigEndian.from_bytes bs * 256 + BigEndian.Z_of_byte b.
Proof.
  unfold BigEndian.from_bytes. now rewrite fold_left_app.
Qed.

Lemma digits_length (n : nat) (v : Z) :
  List.length (BigEndian.digits n v) = n.
Proof.
  revert v. induction n as [|k IH]; simpl; intros v; [reflexivity|].
  rewrite length_app, IH. simpl. lia.
Qed.

(** Decoding the [n] digits of a value that fits [n] bytes gives the value. *)
Lemma from_bytes_digits (n : nat) (v : Z) :
  0 <= v < 256 ^ Z.of_nat n ->
  BigEndian.from_bytes (BigEndian.digits n v) = v.
Proof.
  revert v. induction n as [|k IH]; intros v Hv.
  - simpl in *. unfold BigEndian.from_bytes. simpl. lia.
  - cbn [BigEndian.digits]. rewrite from_bytes_snoc, Z_of_byte_of_Z.
    rewrite Nat2Z.inj_succ, Z.pow_succ_r in Hv by lia.
    rewrite IH.
    + rewrite Z.mod_mod by lia.
      pose proof (Z.div_mod v 256 ltac:(lia)). lia.
    + split.
      * apply Z.div_pos; lia.
      * apply Z.div_lt_upper_bound; lia.
Qed.

Lemma wire_len (field : Field.t) :
  constructible field -> len (wire field) = Field.size field.
Proof.
  intros [Hs _]. unfold wire, len. rewrite digits_length. lia.
Qed.

Lemma int_to_bytes_appends (field : Field.t) (buffer : list byte) :
  constructible field -> value_fits field ->
  Field.offset field = len buffer ->
  BigEndian.int_to_bytes (Field.value field) buffer (Field.offset field)
    (Field.size field) = Ok (buffer ++ wire field).
Proof.
  intros [Hs _] [Hlo Hhi] Hoff.
  unfold BigEndian.int_to_bytes, BigEndian.to_bytes.
  destruct (Z.ltb_spec (Field.size field) 0); [lia|].
  destruct (Z.ltb_spec (Field.value field) 0); [lia|].
  destruct (Z.leb_spec (256 ^ Field.size field) (Field.value field)); [lia|].
  simpl. rewrite Hoff, slice_assign_at_end by lia. reflexivity.
Qed.

Lemma bytes_to_int_reads (field : Field.t) (pre post : list byte) :
  constructible field -> value_fits field ->
  Field.offset field = len pre ->
  BigEndian.bytes_to_int (pre ++ wire field ++ post) (Field.offset field)
    (Field.size field) = Field.value field.
Proof.
  intros Hc Hv Hoff. unfold BigEndian.bytes_to_int.
  rewrite Hoff, <- (wire_len Hc), slice_middle.
  unfold wire. apply from_bytes_digits.
  destruct Hc as [Hs _]. unfold value_fits in Hv.
  now rewrite Z2Nat.id by lia.
Qed.

(** ** Round trip through the big-endian codec *)

Lemma starts_at_next (field : Field.t) (rest : list Field.t) :
  no_gaps (field :: rest) ->
  starts_at (Field.offset field + Field.size field) rest /\ no_gaps rest.
Proof.
  destruct rest as [|next rest]; intros H.
  - split; [exact I|apply adjacent_pairs_nil].
  - apply adjacent_pairs_cons in H. destruct H as [Hgap Hrest].
    split; [|exact Hrest]. unfold Field.end_ in Hgap. simpl. lia.
Qed.

Lemma wire_all_len (fields : list Field.t) :
  Forall constructible fields ->
  len (flat_map wire fields) = sum_of_sizes fields.
Proof.
  induction 1 as [|f rest Hf _ IH]; simpl; [reflexivity|].
  now rewrite len_app, IH, wire_len.
Qed.

(** On fields that tile the buffer from its current end, the loop of
    [as_bytes] appends the bytes of the fields one after the other. *)
Lemma as_bytes_loop_appends (fields : list Field.t) (buffer : list byte) :
  Forall constructible fields -> Forall value_fits fields ->
  starts_at (len buffer) fields -> no_gaps fields ->
  @PacketHeader.as_bytes_loop BigEndian.codec fields buffer =
  Ok (buffer ++ flat_map wire fields).
Proof.
  intros Hc. revert buffer.
  induction Hc as [|f rest Hf _ IH]; intros buffer Hv Hstart Hgaps.
  - simpl. now rewrite app_nil_r.
  - inversion Hv as [|? ? Hvf Hvrest]; subst. simpl in Hstart.
    cbn [PacketHeader.as_bytes_loop int_to_bytes BigEndian.codec].
    rewrite (int_to_bytes_appends buffer Hf Hvf Hstart). cbn [bind].
    destruct (starts_at_next Hgaps) as [Hnext Hrest].
    rewrite IH; trivial.
    + simpl. now rewrite <- app_assoc.
    + now rewrite len_app, wire_len, <- Hstart.
Qed.

(** On such fields, the loop of [parse] gives every field its own value
    back from the bytes written for it. *)
Lemma parse_fields_restores (self : PacketHeader.t) (pre post : list byte) :
  Forall constructible (PacketHeader.as_list self) ->
  Forall value_fits (PacketHeader.as_list self) ->
  starts_at (len pre) (PacketHeader.as_list self) ->
  no_gaps (PacketHeader.as_list self) ->
  @PacketHeader.parse_fields BigEndian.codec
    (pre ++ flat_map wire (PacketHeader.as_list self) ++ post) self = self.
Proof.
  revert pre.
  induction self as [|[k f] rest IH]; intros pre Hc Hv Hstart Hgaps;
    [reflexivity|].
  simpl in Hc, Hv, Hstart, Hgaps.
  inversion Hc as [|? ? Hcf Hcrest]; subst.
  inversion Hv as [|? ? Hvf Hvrest]; subst.
  destruct (starts_at_next Hgaps) as [Hnext Hrest].
  unfold PacketHeader.parse_fields in *.
  cbn [map PacketHeader.as_list flat_map fst snd bytes_to_int BigEndian.codec].
  f_equal.
  - rewrite <- app_assoc, (bytes_to_int_reads pre _ Hcf Hvf Hstart).
    now destruct f.
  - specialize (IH (pre ++ wire f) Hcrest Hvrest).
    rewrite len_app, wire_len, <- Hstart in IH by exact Hcf.
    specialize (IH Hnext Hrest).
    fold (PacketHeader.as_list rest).
    rewrite <- !app_assoc in IH. rewrite <- app_assoc. exact IH.
Qed.

(** C4, as amended: for every header whose fields tile the buffer (the first
    field at offset 0 and [is_continuous] true) and whose every value fits the
    unsigned width of its field, [as_bytes] succeeds, and [parse] on its
    result succeeds and leaves every field with the value it had. *)
Theorem parse_as_bytes_roundtrip (self : PacketHeader.t) :
  Forall constructible (PacketHeader.as_list self) ->
  Forall value_fits (PacketHeader.as_list self) ->
  starts_at 0 (PacketHeader.as_list self) ->
  PacketHeader.is_continuous self = true ->
  exists data : list byte,
    @PacketHeader.as_bytes BigEndian.codec self = Ok data /\
    @PacketHeader.parse BigEndian.codec data self = (Ok tt, self).
Proof.
  intros Hc Hv Hstart Hcont.
  apply is_continuous_loop_spec in Hcont.
  exists (flat_map wire (PacketHeader.as_list self)). split.
  - unfold PacketHeader.as_bytes.
    now rewrite as_bytes_loop_appends.
  - unfold PacketHeader.parse, PacketHeader.size.
    rewrite fold_left_add_sizes, wire_all_len by exact Hc.
    rewrite Z.add_0_l, Z.eqb_refl. simpl. f_equal.
    pose proof (@parse_fields_restores self [] [] Hc Hv Hstart Hcont) as H.
    now rewrite app_nil_l, app_nil_r in H.
Qed.

(** A write header with its three values in range. *)
Lemma parse_as_bytes_roundtrip_witness :
  let self :=
    header_of [F "operation" 0 1 0x09; F "safeload" 1 1 1;
               F "address" 2 2 0x1234] in
  Forall constructible (PacketHeader.as_list self) /\
  Forall value_fits (PacketHeader.as_list self) /\
  starts_at 0 (PacketHeader.as_list self) /\
  PacketHeader.is_continuous self = true /\
  exists data : list byte,
    @PacketHeader.as_bytes BigEndian.codec self = Ok data /\
    @PacketHeader.parse BigEndian.codec data self = (Ok tt, self).
Proof.
  intros self.
  assert (Hc : Forall constructible (PacketHeader.as_list self)).
  { repeat constructor; simpl; lia. }
  assert (Hv : Forall value_fits (PacketHeader.as_list self)).
  { repeat constructor; simpl; lia. }
  refine (conj Hc (conj Hv (conj eq_refl (conj eq_refl _)))).
  exact (@parse_as_bytes_roundtrip self Hc Hv eq_refl eq_refl).
Defined.

(** C4, as stated, fails: the header with the one-byte field (operation, 0, 1)
    is built without any layout error, and with the value 256 in that field
    [as_bytes] raises [OverflowError], so that there is nothing to parse. *)
Lemma roundtrip_fails_on_wide_value :
  let self := header_of [F "operation" 0 1 256] in
  PacketHeader.new [F "operation" 0 1 256] = Ok self /\
  @PacketHeader.as_bytes BigEndian.codec self = Raise OverflowError /\
  ~ (exists data : list byte,
        @PacketHeader.as_bytes BigEndian.codec self = Ok data /\
        @PacketHeader.parse BigEndian.codec data self = (Ok tt, self)).
Proof.
  split; [reflexivity|]. split; [reflexivity|].
  intros (data & H & _). discriminate H.
Qed.

(** The layout matters as well: a header with a gap is built without any
    error, and the value of the field behind the gap does not come back. *)
Lemma roundtrip_fails_on_gap :
  let self := header_of [F "operation" 0 1 9; F "safeload" 5 1 2] in
  PacketHeader.new [F "operation" 0 1 9; F "safeload" 5 1 2] = Ok self /\
  @PacketHeader.as_bytes BigEndian.codec self = Ok [x09; x02] /\
  @PacketHeader.parse BigEndian.codec [x09; x02] self =
    (Ok tt, header_of [F "operation" 0 1 9; F "safeload" 5 1 0]).
Proof.
  repeat split; reflexivity.
Qed.

(** So does the first offset: a single field that does not start at byte 0
    is continuous, and its value does not come back. *)
Lemma roundtrip_fails_off_zero :
  let self := header_of [F "operation" 2 1 9] in
  PacketHeader.new [F "operation" 2 1 9] = Ok self /\
  PacketHeader.is_continuous self = true /\
  @PacketHeader.as_bytes BigEndian.codec self = Ok [x09] /\
  @PacketHeader.parse BigEndian.codec [x09] self =
    (Ok tt, header_of [F "operation" 2 1 0]).
Proof.
  repeat split; reflexivity.
Qed.

(** Whatever the codec is, not every value comes back: the buffer that
    [parse] accepts for a header with one field of size 0 is empty, so a
    codec that brings the value 0 back does not bring the value 1 back. *)
Lemma roundtrip_fails_for_every_codec (codec : Codec) :
  ~ (forall v : Z,
        exists data : list byte,
          PacketHeader.as_bytes (header_of [F "reserved" 0 0 v]) = Ok data /\
          PacketHeader.parse data (header_of [F "reserved" 0 0 v]) =
            (Ok tt, header_of [F "reserved" 0 0 v])).
Proof.
  intros H.
  destruct (H 0) as (d0 & _ & P0). destruct (H 1) as (d1 & _ & P1).
  unfold PacketHeader.parse in P0, P1. simpl in P0, P1.
  destruct d0 as [|b0 d0]; [|unfold len in P0; simpl in P0; 
    destruct (Z.eqb_spec (Z.pos (Pos.of_succ_nat (List.length d0))) 0);
    [lia|discriminate P0]].
  destruct d1 as [|b1 d1]; [|unfold len in P1; simpl in P1;
    destruct (Z.eqb_spec (Z.pos (Pos.of_succ_nat (List.length d1))) 0);
    [lia|discriminate P1]].
  simpl in P0, P1. unfold PacketHeader.parse_fields, header_of in P0, P1.
  simpl in P0, P1. inversion P0 as [E0]. inversion P1 as [E1]. congruence.
Qed.

(** * Further properties of the module *)

(** ** Field construction and [add] *)

(** X1: [add] raises [ValueError] and leaves the header as it was when the
    size or the offset is negative; otherwise (a size of 0 included) it is
    [add_field] on the field with these four attributes. *)
Theorem add_checks_then_adds
  (name : string) (offset size value : Z) (self : PacketHeader.t) :
  (size < 0 \/ offset < 0 ->
   PacketHeader.add name offset size value self = (Raise ValueError, self))
  /\
  (0 <= size -> 0 <= offset ->
   Field.new name offset size value = Ok (F name offset size value) /\
   PacketHeader.add name offset size value self =
   PacketHeader.add_field (F name offset size value) self).
Proof.
  unfold PacketHeader.add, Field.new, F. split.
  - intros H. destruct (Z.ltb_spec size 0); [reflexivity|].
    destruct (Z.ltb_spec offset 0); [reflexivity|lia].
  - intros Hs Ho. destruct (Z.ltb_spec size 0); [lia|].
    destruct (Z.ltb_spec offset 0); [lia|]. split; reflexivity.
Qed.

Lemma add_checks_then_adds_witness :
  let self := header_of [F "operation" 0 1 9] in
  PacketHeader.add "safeload" 1 (-1) 0 self = (Raise ValueError, self) /\
  PacketHeader.add "safeload" (-1) 1 0 self = (Raise ValueError, self) /\
  PacketHeader.add "safeload" 1 0 0 self =
    PacketHeader.add_field (F "safeload" 1 0 0) self.
Proof.
  intros self.
  refine (conj _ (conj _ _)).
  - apply (add_checks_then_adds "safeload" 1 (-1) 0 self). left. lia.
  - apply (add_checks_then_adds "safeload" (-1) 1 0 self). right. lia.
  - apply (add_checks_then_adds "safeload" 1 0 0 self); lia.
Defined.

(** X2: equal fields hash alike, as a hashable class has to ensure: when
    [__eq__] holds of two fields, the tuples that [__hash__] hashes are the
    same (and the two fields have the same four attributes). *)
Theorem Field_eq_implies_same_hash (f g : Field.t) :
  Field.eq f g = true -> Field.hash_key f = Field.hash_key g /\ f = g.
Proof.
  unfold Field.eq, Field.hash_key.
  rewrite !andb_true_iff, String.eqb_eq, !Z.eqb_eq.
  intros (((Hn & Ho) & Hs) & Hv). destruct f, g; simpl in *.
  now subst.
Qed.

Lemma Field_eq_implies_same_hash_witness :
  Field.eq (F "address" 2 2 7) (F "address" 2 2 7) = true /\
  Field.hash_key (F "address" 2 2 7) = Field.hash_key (F "address" 2 2 7).
Proof.
  split; [reflexivity|].
  exact (proj1 (@Field_eq_implies_same_hash (F "address" 2 2 7)
                  (F "address" 2 2 7) eq_refl)).
Defined.

(** ** Sorting by offset *)

Lemma insert_by_offset_at_offset (o : Z) (item : string * Field.t)
  (l : odict) :
  at_offset o (insert_by_offset item l) =
  if Field.offset (snd item) =? o then item :: at_offset o l
  else at_offset o l.
Proof.
  unfold at_offset. induction l as [|x rest IH]; simpl.
  - reflexivity.
  - destruct (Z.leb_spec (Field.offset (snd item)) (Field.offset (snd x)))
      as [Hle|Hgt]; simpl.
    + reflexivity.
    + rewrite IH.
      destruct (Z.eqb_spec (Field.offset (snd item)) o) as [Heq|Hne].
      * destruct (Z.eqb_spec (Field.offset (snd x)) o); [lia|reflexivity].
      * reflexivity.
Qed.

(** X3: [_sort_fields_by_offset] keeps the items (the result is a
    permutation), puts them in ascending offset order, and is stable: the
    items at one and the same offset stay in the order they had. *)
Theorem sort_fields_by_offset_stable (self : PacketHeader.t) :
  Permutation self (PacketHeader._sort_fields_by_offset self) /\
  Sorted offset_le
    (PacketHeader.as_list (PacketHeader._sort_fields_by_offset self)) /\
  forall o : Z,
    at_offset o (PacketHeader._sort_fields_by_offset self) = at_offset o self.
Proof.
  unfold PacketHeader._sort_fields_by_offset.
  split; [apply sorted_by_offset_perm|].
  split; [apply sorted_by_offset_sorted|].
  intros o. induction self as [|x rest IH]; simpl; [reflexivity|].
  rewrite insert_by_offset_at_offset, IH. reflexivity.
Qed.

(** ** Lookup by name *)

Lemma dict_getitem_present (d : odict) (key : string) :
  In key (map fst d) -> exists v : Field.t, dict_getitem d key = Ok v.
Proof.
  induction d as [|[k w] rest IH]; simpl; intros Hin; [contradiction|].
  destruct (String.eqb key k) eqn:E; [now exists w|].
  destruct Hin as [Hk|Hin]; [|now apply IH].
  subst. now rewrite String.eqb_refl in E.
Qed.

Lemma dict_contains_str (d : odict) (key : string) :
  dict_contains d (PyStr key) = true <-> In key (map fst d).
Proof.
  unfold dict_contains. rewrite <- existsb_eqb_In.
  induction d as [|[k w] rest IH]; simpl; [tauto|].
  rewrite !orb_true_iff, IH. tauto.
Qed.

(** X9: for a name, [name in header] is true exactly when [header[name]]
    returns a field, and false exactly when [header[name]] raises
    [KeyError]. *)
Theorem contains_iff_getitem (self : PacketHeader.t) (name : string) :
  (PacketHeader.__contains__ self (PyStr name) = true <->
   exists field : Field.t, PacketHeader.__getitem__ self name = Ok field)
  /\
  (PacketHeader.__contains__ self (PyStr name) = false <->
   PacketHeader.__getitem__ self name = Raise KeyError).
Proof.
  unfold PacketHeader.__contains__, PacketHeader.__getitem__.
  destruct (dict_contains self (PyStr name)) eqn:E.
  - apply dict_contains_str in E.
    destruct (dict_getitem_present self name E) as [v Hv].
    rewrite Hv. split; split; try discriminate; eauto.
  - assert (Hnot : ~ In name (map fst self)).
    { intros Hin. apply dict_contains_str in Hin. congruence. }
    rewrite (dict_getitem_missing self name Hnot).
    split; split; try discriminate; try reflexivity.
    intros [f Hf]. discriminate Hf.
Qed.

(** ** The operation keys *)

(** X14: [OperationKey(v)] returns a member exactly when [v] is the value of
    that member, so that the lookup by value undoes [.value] and the three
    values are pairwise different; every other integer raises
    [ValueError]. *)
Theorem OperationKey_call_value (v : Z) (k : OperationKey) :
  (OperationKey_call v = Ok k <-> v = OperationKey_value k) /\
  OperationKey_call (OperationKey_value k) = Ok k /\
  (OperationKey_call v = Raise ValueError <->
   v <> 0x0A /\ v <> 0x0B /\ v <> 0x09).
Proof.
  unfold OperationKey_call. simpl.
  destruct (Z.eqb_spec v 10) as [H10|H10];
    [|destruct (Z.eqb_spec v 11) as [H11|H11];
      [|destruct (Z.eqb_spec v 9) as [H9|H9]]];
    (split; [|split; [now destruct k|]]);
    split; intros H; try discriminate; try lia;
    try (destruct k; simpl in *; (congruence || lia)).
Qed.

(** ** Construction *)

Lemma dict_setitem_fresh (d : odict) (key : string) (v : Field.t) :
  ~ In key (map fst d) -> dict_setitem d key v = d ++ [(key, v)].
Proof.
  induction d as [|[k w] rest IH]; simpl; intros Hnot; [reflexivity|].
  destruct (String.eqb key k) eqn:E.
  - apply String.eqb_eq in E. subst. tauto.
  - rewrite IH; [reflexivity|tauto].
Qed.

Lemma dict_setitem_keys_are_names (d : odict) (field : Field.t) :
  keys_are_names d ->
  keys_are_names (dict_setitem d (Field.name field) field).
Proof.
  unfold keys_are_names.
  induction 1 as [|[k w] rest Hk Hrest IH]; simpl.
  - now repeat constructor.
  - destruct (String.eqb (Field.name field) k) eqn:E.
    + apply String.eqb_eq in E. constructor; [now simpl|exact Hrest].
    + now constructor.
Qed.

Lemma add_field_keys_are_names (field : Field.t) (self : PacketHeader.t) :
  keys_are_names self ->
  keys_are_names (snd (PacketHeader.add_field field self)).
Proof.
  intros H. rewrite add_field_unfold. simpl.
  apply (dict_setitem_keys_are_names field) in H.
  unfold keys_are_names in *. rewrite Forall_forall in *.
  intros item Hin. apply H.
  eapply Permutation_in; [apply Permutation_sym, sorted_by_offset_perm|].
  exact Hin.
Qed.

(** What holds of the header on entry and is kept by every [add_field] holds
    of the header that the loop of [__init__] leaves. *)
Lemma init_loop_keeps (P : PacketHeader.t -> Prop) (fields : list Field.t) :
  (forall field self, P self -> P (snd (PacketHeader.add_field field self))) ->
  forall self, P self -> P (snd (PacketHeader.init_loop fields self)).
Proof.
  intros Hstep. induction fields as [|f rest IH]; simpl; intros self HP.
  - exact HP.
  - specialize (Hstep f self HP).
    destruct (PacketHeader.add_field f self) as [[[]|e] self']; simpl in *.
    + now apply IH.
    + exact Hstep.
Qed.

Lemma init_loop_perm (fields : list Field.t) (self h : PacketHeader.t) :
  NoDup (map Field.name fields) ->
  (forall field, In field fields -> ~ In (Field.name field) (map fst self)) ->
  PacketHeader.init_loop fields self = (Ok tt, h) ->
  Permutation (self ++ header_of fields) h.
Proof.
  revert self. induction fields as [|f rest IH]; simpl; intros self Hnd Hfresh.
  - intros H. inversion H; subst. now rewrite app_nil_r.
  - inversion Hnd as [|? ? Hf Hrest]; subst.
    rewrite add_field_unfold.
    rewrite (@dict_setitem_fresh self (Field.name f) f
               (Hfresh f (or_introl eq_refl))).
    destruct (PacketHeader._check_for_overlaps _) as [[]|e];
      [|discriminate].
    intros H. apply IH in H; [|exact Hrest|].
    + rewrite <- H.
      change (self ++ (Field.name f, f) :: header_of rest)
        with (self ++ [(Field.name f, f)] ++ header_of rest).
      rewrite app_assoc. apply Permutation_app_tail.
      apply sorted_by_offset_perm.
    + intros g Hg Hin.
      apply (Permutation_in _
               (Permutation_sym
                  (Permutation_map fst
                     (sorted_by_offset_perm (self ++ [(Field.name f, f)])))))
        in Hin.
      rewrite map_app in Hin. apply in_app_or in Hin.
      destruct Hin as [Hin|[Heq|[]]].
      * exact (Hfresh g (or_intror Hg) Hin).
      * simpl in Heq. apply Hf. rewrite Heq. now apply in_map.
Qed.

(** X4: when the given fields have pairwise different names and
    [PacketHeader(fields)] raises no error, the header holds exactly the
    given fields, each under its name, in ascending offset order. *)
Theorem new_holds_the_fields (fields : list Field.t) (self : PacketHeader.t) :
  NoDup (map Field.name fields) ->
  PacketHeader.new fields = Ok self ->
  Permutation (header_of fields) self /\
  Sorted offset_le (PacketHeader.as_list self) /\
  forall field : Field.t,
    In field fields ->
    PacketHeader.__getitem__ self (Field.name field) = Ok field.
Proof.
  unfold PacketHeader.new. intros Hnd H.
  destruct (PacketHeader.init_loop fields []) as [[[]|e] h] eqn:E;
    [|discriminate].
  inversion H; subst h. clear H.
  assert (Hperm : Permutation (header_of fields) self).
  { apply (@init_loop_perm fields [] self Hnd); [|exact E]. intros f _ []. }
  split; [exact Hperm|]. split.
  - replace self with (snd (PacketHeader.init_loop fields [])) by now rewrite E.
    apply (@init_loop_keeps
             (fun h => Sorted offset_le (PacketHeader.as_list h))).
    + intros f h _. apply add_field_sorted.
    + constructor.
  - intros f Hf. unfold PacketHeader.__getitem__. apply dict_getitem_In.
    + unfold unique_keys.
      eapply Permutation_NoDup; [apply Permutation_map, Hperm|].
      unfold header_of. rewrite map_map. simpl. exact Hnd.
    + eapply Permutation_in; [exact Hperm|].
      unfold header_of. apply (in_map (fun g => (Field.name g, g))), Hf.
Qed.

Lemma new_holds_the_fields_witness :
  let fields := [F "address" 2 2 7; F "operation" 0 1 9; F "safeload" 1 1 1] in
  let self :=
    header_of [F "operation" 0 1 9; F "safeload" 1 1 1; F "address" 2 2 7] in
  NoDup (map Field.name fields) /\
  PacketHeader.new fields = Ok self /\
  Permutation (header_of fields) self /\
  PacketHeader.__getitem__ self "address" = Ok (F "address" 2 2 7).
Proof.
  intros fields self.
  assert (Hnd : NoDup (map Field.name fields)).
  { repeat constructor; simpl; intuition discriminate. }
  destruct (@new_holds_the_fields fields self Hnd eq_refl) as (Hp & _ & Hg).
  refine (conj Hnd (conj eq_refl (conj Hp _))).
  apply (Hg (F "address" 2 2 7)). simpl. tauto.
Defined.

(** ** What the overlap check leaves *)

Lemma offset_le_trans : Relations_1.Transitive offset_le.
Proof. intros a b c. unfold offset_le. lia. Qed.

Lemma ends_within_later (fields : list Field.t) :
  Sorted offset_le fields -> ends_within_next fields ->
  forall (i j : nat) (field later : Field.t),
    (i < j)%nat ->
    nth_error fields i = Some field -> nth_error fields j = Some later ->
    Field.end_ field <= Field.offset later.
Proof.
  intros Hs. apply (Sorted_StronglySorted offset_le_trans) in Hs.
  induction Hs as [|a rest Hrest IH Hall]; intros Hadj i j f g Hij Hi Hj.
  - destruct i; discriminate.
  - destruct j as [|j]; [lia|]. simpl in Hj.
    destruct rest as [|b rest'].
    + destruct j; discriminate.
    + apply adjacent_pairs_cons in Hadj. destruct Hadj as [Hab Hadj].
      destruct i as [|i]; simpl in Hi.
      * inversion Hi; subst f. clear Hi.
        assert (Hb : offset_le b g).
        { destruct j as [|j]; simpl in Hj.
          - inversion Hj; subst. unfold offset_le. lia.
          - inversion Hrest as [|? ? _ Hbl]; subst.
            rewrite Forall_forall in Hbl. apply Hbl.
            now apply nth_error_In in Hj. }
        unfold offset_le in Hb. lia.
      * apply (IH Hadj i j f g); [lia|exact Hi|exact Hj].
Qed.

(** What holds of the header on entry and is kept by every [add_field] that
    raises no error holds of the header of a loop that raised no error. *)
Lemma init_loop_ok_keeps (P : PacketHeader.t -> Prop) (fields : list Field.t) :
  (forall field self,
      P self -> fst (PacketHeader.add_field field self) = Ok tt ->
      P (snd (PacketHeader.add_field field self))) ->
  forall self h,
    P self -> PacketHeader.init_loop fields self = (Ok tt, h) -> P h.
Proof.
  intros Hstep. induction fields as [|f rest IH]; simpl; intros self h HP H.
  - inversion H; subst. exact HP.
  - specialize (Hstep f self HP).
    destruct (PacketHeader.add_field f self) as [[[]|e] self']; simpl in *.
    + apply (IH self' h (Hstep eq_refl) H).
    + discriminate H.
Qed.

(** X5: in a header that [PacketHeader(fields)] built, every field ends at
    or before the offset of every field that comes after it: two fields share
    at most the one byte on which the earlier one ends. *)
Theorem new_fields_end_within_later
  (fields : list Field.t) (self : PacketHeader.t) :
  PacketHeader.new fields = Ok self ->
  forall (i j : nat) (field later : Field.t),
    (i < j)%nat ->
    nth_error (PacketHeader.as_list self) i = Some field ->
    nth_error (PacketHeader.as_list self) j = Some later ->
    Field.end_ field <= Field.offset later.
Proof.
  unfold PacketHeader.new. intros H.
  destruct (PacketHeader.init_loop fields []) as [[[]|e] h] eqn:E;
    [|discriminate].
  inversion H; subst h. clear H.
  assert (Hinv :
    Sorted offset_le (PacketHeader.as_list self) /\
    ends_within_next (PacketHeader.as_list self)).
  { apply (@init_loop_ok_keeps
             (fun h => Sorted offset_le (PacketHeader.as_list h) /\
                       ends_within_next (PacketHeader.as_list h))
             fields) with (self := []); [| |exact E].
    - intros f s _ Hok. split.
      + apply add_field_sorted.
      + now apply add_field_ends_within_next.
    - split; [constructor|apply adjacent_pairs_nil]. }
  destruct Hinv as [Hs He]. now apply ends_within_later.
Qed.

Lemma new_fields_end_within_later_witness :
  let fields := [F "address" 4 2 0; F "operation" 0 4 0; F "safeload" 3 1 0] in
  let self :=
    header_of [F "operation" 0 4 0; F "safeload" 3 1 0; F "address" 4 2 0] in
  PacketHeader.new fields = Ok self /\
  Field.end_ (F "operation" 0 4 0) <= Field.offset (F "address" 4 2 0).
Proof.
  intros fields self. split; [reflexivity|].
  apply (@new_fields_end_within_later fields self eq_refl 0%nat 2%nat);
    [lia|reflexivity|reflexivity].
Defined.

(** ** [add_field]: errors and the number of fields *)

(** X6: the only error of [add_field] is [MemoryError], and it comes after
    the header was changed: the new field is stored under its name in the
    header that a raising [add_field] leaves, and that header has a field
    that ends beyond the offset of the next one. *)
Theorem add_field_raises_after_storing
  (self : PacketHeader.t) (field : Field.t) (e : exn) :
  unique_keys self ->
  fst (PacketHeader.add_field field self) = Raise e ->
  e = MemoryError /\
  PacketHeader.__getitem__ (snd (PacketHeader.add_field field self))
    (Field.name field) = Ok field /\
  ~ ends_within_next
      (PacketHeader.as_list (snd (PacketHeader.add_field field self))).
Proof.
  intros Hu Hraise. split; [|split].
  - rewrite add_field_unfold in Hraise. simpl in Hraise.
    unfold PacketHeader._check_for_overlaps in Hraise.
    destruct (check_for_overlaps_loop_raises
                (PacketHeader.adjacent
                   (PacketHeader.as_list
                      (sorted_by_offset
                         (dict_setitem self (Field.name field) field)))))
      as [H|H]; rewrite H in Hraise; congruence.
  - now apply add_field_getitem.
  - intros Hends. rewrite add_field_unfold in Hraise, Hends.
    simpl in Hraise, Hends.
    apply check_for_overlaps_loop_spec in Hends.
    unfold PacketHeader._check_for_overlaps in Hraise. congruence.
Qed.

Lemma add_field_raises_after_storing_witness :
  let self := header_of [F "operation" 0 4 0] in
  let field := F "safeload" 2 1 0 in
  unique_keys self /\
  fst (PacketHeader.add_field field self) = Raise MemoryError /\
  PacketHeader.__getitem__ (snd (PacketHeader.add_field field self))
    "safeload" = Ok field.
Proof.
  intros self field.
  assert (Hu : unique_keys self).
  { repeat constructor; simpl; intuition discriminate. }
  refine (conj Hu (conj eq_refl _)).
  exact (proj1 (proj2 (@add_field_raises_after_storing self field MemoryError
                          Hu eq_refl))).
Defined.

(** X7: [add_field] on a name that the header has replaces the field under
    that name and keeps the number of fields; on a new name it adds one field;
    either way the names of the header are then the old ones and the name of
    the field. *)
Theorem add_field_count (self : PacketHeader.t) (field : Field.t) :
  List.length (snd (PacketHeader.add_field field self)) =
  (if PacketHeader.__contains__ self (PyStr (Field.name field))
   then List.length self else S (List.length self))
  /\
  forall key : string,
    In key (map fst (snd (PacketHeader.add_field field self))) <->
    key = Field.name field \/ In key (map fst self).
Proof.
  rewrite add_field_unfold. simpl.
  pose proof (sorted_by_offset_perm
                (dict_setitem self (Field.name field) field)) as Hp.
  pose proof (dict_setitem_keys self (Field.name field) field) as Hk.
  assert (Hc : PacketHeader.__contains__ self (PyStr (Field.name field)) =
               existsb (String.eqb (Field.name field)) (map fst self)).
  { unfold PacketHeader.__contains__.
    destruct (existsb (String.eqb (Field.name field)) (map fst self)) eqn:E.
    - apply dict_contains_str. now apply existsb_eqb_In.
    - destruct (dict_contains self (PyStr (Field.name field))) eqn:E';
        [|reflexivity].
      apply dict_contains_str, existsb_eqb_In in E'. congruence. }
  rewrite Hc. split.
  - rewrite <- (Permutation_length Hp).
    rewrite <- (length_map fst (dict_setitem _ _ _)), Hk.
    destruct (existsb (String.eqb (Field.name field)) (map fst self)).
    + apply length_map.
    + rewrite length_app, length_map. simpl. lia.
  - intros key. split.
    + intros Hin.
      apply (Permutation_in _ (Permutation_sym (Permutation_map fst Hp)))
        in Hin.
      rewrite Hk in Hin.
      destruct (existsb (String.eqb (Field.name field)) (map fst self));
        [now right|].
      apply in_app_or in Hin. destruct Hin as [Hin|[Heq|[]]]; auto.
    + intros Hin. apply (Permutation_in _ (Permutation_map fst Hp)).
      rewrite Hk.
      destruct (existsb (String.eqb (Field.name field)) (map fst self)) eqn:E.
      * destruct Hin as [Heq|Hin]; [|exact Hin].
        subst. now apply existsb_eqb_In.
      * apply in_or_app. destruct Hin as [Heq|Hin]; [right|now left].
        subst. now left.
Qed.

(** ** Continuity and the overlap check *)

(** X12: a continuous header passes the overlap check: [is_continuous] true
    implies that [_check_for_overlaps] raises nothing. *)
Theorem continuous_passes_overlap_check (self : PacketHeader.t) :
  PacketHeader.is_continuous self = true ->
  PacketHeader._check_for_overlaps self = Ok tt.
Proof.
  intros H. apply is_continuous_loop_spec in H.
  apply check_for_overlaps_loop_spec.
  intros i f g Hf Hg. specialize (H i f g Hf Hg). simpl in H. lia.
Qed.

Lemma continuous_passes_overlap_check_witness :
  let self := header_of [F "operation" 0 1 0; F "address" 1 2 0] in
  PacketHeader.is_continuous self = true /\
  PacketHeader._check_for_overlaps self = Ok tt.
Proof.
  intros self. split; [reflexivity|].
  exact (@continuous_passes_overlap_check self eq_refl).
Defined.

Lemma starts_at_nth (fields : list Field.t) :
  forall (start : Z) (i : nat) (field : Field.t),
    starts_at start fields -> no_gaps fields ->
    nth_error fields i = Some field ->
    Field.offset field = start + sum_of_sizes (firstn i fields).
Proof.
  induction fields as [|a rest IH]; intros start i f Hstart Hgaps Hi.
  - destruct i; discriminate.
  - destruct (starts_at_next Hgaps) as [Hnext Hrest].
    simpl in Hstart. destruct i as [|i]; simpl in *.
    + inversion Hi; subst. lia.
    + rewrite (@IH _ i f Hnext Hrest Hi). lia.
Qed.

(** X13: in a continuous header whose first field is at offset 0, the offset
    of every field is the sum of the sizes of the fields before it: the
    layout has neither a gap nor a shared byte, and [size] is the position
    right behind the last field. *)
Theorem continuous_offsets_are_prefix_sums
  (self : PacketHeader.t) (i : nat) (field : Field.t) :
  starts_at 0 (PacketHeader.as_list self) ->
  PacketHeader.is_continuous self = true ->
  nth_error (PacketHeader.as_list self) i = Some field ->
  Field.offset field = sum_of_sizes (firstn i (PacketHeader.as_list self)) /\
  (S i = List.length (PacketHeader.as_list self) ->
   PacketHeader.size self = Field.end_ field + 1).
Proof.
  intros Hstart Hcont Hi. apply is_continuous_loop_spec in Hcont.
  pose proof (@starts_at_nth _ 0 i field Hstart Hcont Hi) as Hoff.
  split; [lia|]. intros Hlast.
  unfold PacketHeader.size. rewrite fold_left_add_sizes.
  rewrite <- (firstn_skipn i (PacketHeader.as_list self)) at 1.
  assert (Hskip : skipn i (PacketHeader.as_list self) = [field]).
  { revert Hi Hlast. generalize (PacketHeader.as_list self). clear.
    induction i as [|i IH]; intros [|a l] Hi Hlast; simpl in *;
      try discriminate.
    - inversion Hi; subst. destruct l; [reflexivity|discriminate].
    - apply IH; [exact Hi|lia]. }
  rewrite Hskip.
  assert (Hsum : forall l l', sum_of_sizes (l ++ l') =
                              sum_of_sizes l + sum_of_sizes l').
  { induction l as [|x l IHl]; simpl; intros l'; [reflexivity|].
    rewrite IHl. lia. }
  rewrite Hsum. unfold Field.end_. simpl. lia.
Qed.

Lemma continuous_offsets_are_prefix_sums_witness :
  let self :=
    header_of [F "operation" 0 1 0; F "data_length" 1 4 0;
               F "address" 5 2 0] in
  starts_at 0 (PacketHeader.as_list self) /\
  PacketHeader.is_continuous self = true /\
  Field.offset (F "address" 5 2 0) = 1 + (4 + 0) /\
  PacketHeader.size self = 7.
Proof.
  intros self.
  destruct (@continuous_offsets_are_prefix_sums self 2%nat (F "address" 5 2 0)
              eq_refl eq_refl eq_refl) as [Hoff Hsize].
  refine (conj eq_refl (conj eq_refl (conj Hoff _))).
  exact (Hsize eq_refl).
Defined.

(** ** Values and layout *)

Lemma layout_sizes (self : PacketHeader.t) :
  map Field.size (PacketHeader.as_list self) = map snd (layout self).
Proof. unfold layout. rewrite map_map. reflexivity. Qed.

Lemma same_layout_continuous (l1 l2 : list Field.t) :
  map Field.hash_key l1 = map Field.hash_key l2 ->
  PacketHeader.is_continuous_loop (PacketHeader.adjacent l1) =
  PacketHeader.is_continuous_loop (PacketHeader.adjacent l2).
Proof.
  revert l2. induction l1 as [|a [|b r1] IH]; intros [|a' [|b' r2]] H;
    try discriminate; try reflexivity.
  change (PacketHeader.adjacent (a :: b :: r1))
    with ((a, b) :: PacketHeader.adjacent (b :: r1)).
  change (PacketHeader.adjacent (a' :: b' :: r2))
    with ((a', b') :: PacketHeader.adjacent (b' :: r2)).
  cbn [PacketHeader.is_continuous_loop].
  assert (Ha : Field.hash_key a = Field.hash_key a')
    by (simpl in H; congruence).
  assert (Ht : map Field.hash_key (b :: r1) = map Field.hash_key (b' :: r2))
    by (simpl in *; congruence).
  assert (Hb : Field.hash_key b = Field.hash_key b')
    by (simpl in Ht; congruence).
  rewrite (IH (b' :: r2) Ht).
  unfold Field.hash_key in Ha, Hb.
  injection Ha as Hna Hoa Hsa. injection Hb as Hnb Hob Hsb.
  unfold Field.end_. rewrite Hoa, Hsa, Hob. reflexivity.
Qed.

(** The size and the continuity of a header are those of its layout. *)
Lemma same_layout_size_continuous (h1 h2 : PacketHeader.t) :
  layout h1 = layout h2 ->
  PacketHeader.size h1 = PacketHeader.size h2 /\
  PacketHeader.is_continuous h1 = PacketHeader.is_continuous h2.
Proof.
  intros H. split.
  - unfold PacketHeader.size. now rewrite !layout_sizes, H.
  - now apply same_layout_continuous.
Qed.

Lemma dict_getitem_setitem_same (d : odict) (key : string) (v : Field.t) :
  dict_getitem (dict_setitem d key v) key = Ok v.
Proof.
  induction d as [|[k w] rest IH]; simpl.
  - now rewrite String.eqb_refl.
  - destruct (String.eqb key k) eqn:E; simpl; now rewrite E.
Qed.

Lemma dict_getitem_setitem_other (d : odict) (key other : string)
  (v : Field.t) :
  other <> key ->
  dict_getitem (dict_setitem d key v) other = dict_getitem d other.
Proof.
  intros Hne. induction d as [|[k w] rest IH]; simpl.
  - apply String.eqb_neq in Hne. now rewrite Hne.
  - destruct (String.eqb key k) eqn:E; simpl.
    + apply String.eqb_eq in E. subst k.
      apply String.eqb_neq in Hne. now rewrite Hne.
    + now rewrite IH.
Qed.

Lemma dict_setitem_layout (d : odict) (key : string) (w : Field.t) (v : Z) :
  dict_getitem d key = Ok w ->
  layout (dict_setitem d key (Field.set_value w v)) = layout d.
Proof.
  unfold layout, PacketHeader.as_list.
  induction d as [|[k u] rest IH]; simpl; [discriminate|].
  destruct (String.eqb key k) eqn:E; simpl; intros H.
  - inversion H; subst. reflexivity.
  - now rewrite IH.
Qed.

Lemma names_are_keys (self : PacketHeader.t) :
  keys_are_names self -> PacketHeader.names self = map fst self.
Proof.
  unfold PacketHeader.names, PacketHeader.as_list.
  induction 1 as [|[k w] rest Hk _ IH]; simpl in *; [reflexivity|].
  now rewrite IH, Hk.
Qed.

(** X8: [header[name] = value] on a name that no field of the header has
    raises [ValueError] and leaves the header as it was; on the name of a
    field it raises nothing, [header[name]] is then that field with the new
    value, every other name gives what it gave before, and the layout is the
    same. *)
Theorem setitem_then_getitem
  (self : PacketHeader.t) (name : string) (value : Z) :
  keys_are_names self ->
  (~ In name (PacketHeader.names self) ->
   PacketHeader.__setitem__ name value self = (Raise ValueError, self))
  /\
  (In name (PacketHeader.names self) ->
   exists field : Field.t,
     PacketHeader.__getitem__ self name = Ok field /\
     fst (PacketHeader.__setitem__ name value self) = Ok tt /\
     PacketHeader.__getitem__
       (snd (PacketHeader.__setitem__ name value self)) name =
       Ok (Field.set_value field value) /\
     (forall other : string,
         other <> name ->
         PacketHeader.__getitem__
           (snd (PacketHeader.__setitem__ name value self)) other =
         PacketHeader.__getitem__ self other) /\
     layout (snd (PacketHeader.__setitem__ name value self)) = layout self).
Proof.
  intros Hk. unfold PacketHeader.__setitem__, PacketHeader.__getitem__.
  split; intros Hin.
  - destruct (existsb (String.eqb name) (PacketHeader.names self)) eqn:E;
      [|reflexivity].
    apply existsb_eqb_In in E. contradiction.
  - assert (E : existsb (String.eqb name) (PacketHeader.names self) = true)
      by now apply existsb_eqb_In.
    rewrite E. simpl.
    rewrite (names_are_keys Hk) in Hin.
    destruct (dict_getitem_present self name Hin) as [field Hfield].
    exists field. rewrite Hfield. simpl.
    split; [reflexivity|]. split; [reflexivity|]. split; [|split].
    + apply dict_getitem_setitem_same.
    + intros other Hne. now apply dict_getitem_setitem_other.
    + now apply dict_setitem_layout.
Qed.

Lemma setitem_then_getitem_witness :
  let self := header_of [F "operation" 0 1 0; F "address" 1 2 0] in
  keys_are_names self /\
  PacketHeader.__setitem__ "channel" 3 self = (Raise ValueError, self) /\
  exists field : Field.t,
    PacketHeader.__getitem__ self "address" = Ok field /\
    PacketHeader.__getitem__
      (snd (PacketHeader.__setitem__ "address" 0x1234 self)) "address" =
      Ok (Field.set_value field 0x1234).
Proof.
  intros self.
  assert (Hk : keys_are_names self) by (repeat constructor).
  destruct (@setitem_then_getitem self "channel" 3 Hk) as [Hmiss _].
  destruct (@setitem_then_getitem self "address" 0x1234 Hk) as [_ Hhit].
  refine (conj Hk (conj _ _)).
  - apply Hmiss. simpl. intuition discriminate.
  - destruct Hhit as (field & Hget & _ & Hnew & _).
    + simpl. tauto.
    + exists field. split; [exact Hget|exact Hnew].
Defined.

(** ** Parsing again *)

Lemma parse_fields_layout (codec : Codec) (data : list byte)
  (self : PacketHeader.t) :
  layout (PacketHeader.parse_fields data self) = layout self.
Proof.
  unfold layout. rewrite parse_fields_as_list, map_map. reflexivity.
Qed.

Lemma parse_fields_same_layout (codec : Codec) (data : list byte)
  (h1 h2 : PacketHeader.t) :
  map fst h1 = map fst h2 -> layout h1 = layout h2 ->
  PacketHeader.parse_fields data h1 = PacketHeader.parse_fields data h2.
Proof.
  unfold layout, PacketHeader.as_list, PacketHeader.parse_fields.
  revert h2. induction h1 as [|[k1 f1] r1 IH]; intros [|[k2 f2] r2] Hk Hl;
    try discriminate; [reflexivity|].
  simpl in *. injection Hk as Hk Hkr.
  injection Hl as Hname Hoffset Hsize Hlr.
  rewrite (IH r2 Hkr Hlr). unfold Field.set_value.
  now rewrite Hk, Hname, Hoffset, Hsize.
Qed.

(** X10: a [parse] that succeeds changes values only: the names, the layout,
    the size and the continuity of the header are what they were, and parsing
    the same buffer once more changes nothing. *)
Theorem parse_keeps_layout
  (codec : Codec) (self : PacketHeader.t) (data : list byte) :
  len data = PacketHeader.size self ->
  map fst (snd (PacketHeader.parse data self)) = map fst self /\
  layout (snd (PacketHeader.parse data self)) = layout self /\
  PacketHeader.size (snd (PacketHeader.parse data self)) =
    PacketHeader.size self /\
  PacketHeader.is_continuous (snd (PacketHeader.parse data self)) =
    PacketHeader.is_continuous self /\
  PacketHeader.parse data (snd (PacketHeader.parse data self)) =
    PacketHeader.parse data self.
Proof.
  intros Hlen. apply Z.eqb_eq in Hlen.
  assert (Hp : PacketHeader.parse data self =
               (Ok tt, PacketHeader.parse_fields data self)).
  { unfold PacketHeader.parse. now rewrite Hlen. }
  rewrite Hp. cbn [snd].
  pose proof (parse_fields_layout codec data self) as Hl.
  pose proof (parse_fields_keys codec data self) as Hk.
  destruct (same_layout_size_continuous _ _ Hl) as [Hs Hc].
  repeat (split; [assumption|]).
  unfold PacketHeader.parse. rewrite Hs, Hlen. simpl. f_equal.
  now apply parse_fields_same_layout.
Qed.

Lemma parse_keeps_layout_witness :
  let self := header_of [F "operation" 0 1 0; F "address" 1 2 0] in
  let data := [x09; x12; x34] in
  len data = PacketHeader.size self /\
  layout (snd (@PacketHeader.parse BigEndian.codec data self)) = layout self /\
  @PacketHeader.parse BigEndian.codec data
    (snd (@PacketHeader.parse BigEndian.codec data self)) =
  @PacketHeader.parse BigEndian.codec data self.
Proof.
  intros self data.
  destruct (@parse_keeps_layout BigEndian.codec self data eq_refl)
    as (_ & Hl & _ & _ & Hagain).
  exact (conj eq_refl (conj Hl Hagain)).
Defined.

(** X11: [parse] overwrites every value: on two headers with the same names
    and the same layout a buffer of the right length gives the same header,
    whatever values the two held before. *)
Theorem parse_overwrites_every_value
  (codec : Codec) (data : list byte) (h1 h2 : PacketHeader.t) :
  map fst h1 = map fst h2 -> layout h1 = layout h2 ->
  len data = PacketHeader.size h1 ->
  fst (PacketHeader.parse data h1) = Ok tt /\
  PacketHeader.parse data h1 = PacketHeader.parse data h2.
Proof.
  intros Hk Hl Hlen. unfold PacketHeader.parse.
  destruct (same_layout_size_continuous _ _ Hl) as [Hs _].
  rewrite <- Hs. apply Z.eqb_eq in Hlen. rewrite Hlen. simpl.
  split; [reflexivity|]. f_equal. now apply parse_fields_same_layout.
Qed.

Lemma parse_overwrites_every_value_witness :
  let h1 := header_of [F "operation" 0 1 9; F "address" 1 2 7] in
  let h2 := header_of [F "operation" 0 1 0; F "address" 1 2 0] in
  @PacketHeader.parse BigEndian.codec [x0a; x00; x05] h1 =
  @PacketHeader.parse BigEndian.codec [x0a; x00; x05] h2.
Proof.
  intros h1 h2.
  exact (proj2 (@parse_overwrites_every_value BigEndian.codec
                  [x0a; x00; x05] h1 h2 eq_refl eq_refl eq_refl)).
Defined.

(** ** The predicates, on every header *)

(** X15: the five predicates depend on the presence of the field
    [operation] only: without it each of them raises [KeyError]; with it each
    of them returns [False], whatever integer the field holds, and
    [is_safeload] never looks the field [safeload] up. *)
Theorem predicates_by_operation_field (self : PacketHeader.t) :
  (~ In "operation"%string (map fst self) ->
   PacketHeader.is_write_request self = Raise KeyError /\
   PacketHeader.is_read_request self = Raise KeyError /\
   PacketHeader.is_read_response self = Raise KeyError /\
   PacketHeader.is_safeload self = Raise KeyError /\
   PacketHeader.carries_payload self = Raise KeyError)
  /\
  (In "operation"%string (map fst self) ->
   PacketHeader.is_write_request self = Ok false /\
   PacketHeader.is_read_request self = Ok false /\
   PacketHeader.is_read_response self = Ok false /\
   PacketHeader.is_safeload self = Ok false /\
   PacketHeader.carries_payload self = Ok false).
Proof.
  split.
  - apply predicates_require_operation.
  - intros Hin. destruct (dict_getitem_present self _ Hin) as [field Hfield].
    now apply is_write_request_of_int with (field := field).
Qed.

Lemma predicates_by_operation_field_witness :
  PacketHeader.is_safeload (header_of [F "safeload" 1 1 1]) = Raise KeyError /\
  PacketHeader.is_read_response
    (header_of [F "operation" 0 1 0x0B; F "success" 1 1 1]) = Ok false.
Proof.
  split.
  - apply (predicates_by_operation_field (header_of [F "safeload" 1 1 1])).
    simpl. intuition discriminate.
  - apply (predicates_by_operation_field
             (header_of [F "operation" 0 1 0x0B; F "success" 1 1 1])).
    simpl. tauto.
Defined.

(** ** From bytes to a header and back *)

Lemma Z_of_byte_bound (b : byte) : 0 <= BigEndian.Z_of_byte b < 256.
Proof.
  unfold BigEndian.Z_of_byte. pose proof (Byte.to_N_bounded b). lia.
Qed.

Lemma byte_of_Z_of_byte (b : byte) :
  BigEndian.byte_of_Z (BigEndian.Z_of_byte b) = b.
Proof.
  pose proof (Z_of_byte_bound b) as Hb.
  unfold BigEndian.byte_of_Z. rewrite Z.mod_small by exact Hb.
  unfold BigEndian.Z_of_byte. rewrite N2Z.id, Byte.of_to_N. reflexivity.
Qed.

Lemma from_bytes_bound (bs : list byte) :
  0 <= BigEndian.from_bytes bs < 256 ^ len bs.
Proof.
  induction bs as [|b bs IH] using rev_ind.
  - unfold BigEndian.from_bytes, len. simpl. lia.
  - rewrite from_bytes_snoc, len_app.
    pose proof (Z_of_byte_bound b). pose proof (len_nonneg bs).
    change (len [b]) with 1. rewrite Z.pow_add_r by lia.
    change (256 ^ 1) with 256. nia.
Qed.

(** Encoding what a byte string decodes to, on its length, gives it back. *)
Lemma digits_from_bytes (bs : list byte) :
  BigEndian.digits (List.length bs) (BigEndian.from_bytes bs) = bs.
Proof.
  induction bs as [|b bs IH] using rev_ind; [reflexivity|].
  rewrite length_app, Nat.add_comm. cbn [List.length Nat.add BigEndian.digits].
  rewrite from_bytes_snoc. pose proof (Z_of_byte_bound b) as Hb.
  replace ((BigEndian.from_bytes bs * 256 + BigEndian.Z_of_byte b) / 256)
    with (BigEndian.from_bytes bs)
    by (apply Z.div_unique_pos with (r := BigEndian.Z_of_byte b); lia).
  replace ((BigEndian.from_bytes bs * 256 + BigEndian.Z_of_byte b) mod 256)
    with (BigEndian.Z_of_byte b)
    by (apply Z.mod_unique_pos with (q := BigEndian.from_bytes bs); lia).
  now rewrite IH, byte_of_Z_of_byte.
Qed.

Lemma sum_of_sizes_nonneg (fields : list Field.t) :
  Forall constructible fields -> 0 <= sum_of_sizes fields.
Proof.
  induction 1 as [|f rest [Hs _] _ IH]; simpl; lia.
Qed.

(** On fields that tile the rest of the buffer, the loop of [as_bytes] over
    the values decoded from [data] completes the part of [data] written so
    far to [data]. *)
Lemma as_bytes_loop_of_decoded (data : list byte) (fields : list Field.t) :
  forall buffer rest : list byte,
    data = buffer ++ rest ->
    Forall constructible fields ->
    starts_at (len buffer) fields -> no_gaps fields ->
    len rest = sum_of_sizes fields ->
    @PacketHeader.as_bytes_loop BigEndian.codec
      (map (fun field =>
              Field.set_value field
                (BigEndian.bytes_to_int data (Field.offset field)
                   (Field.size field)))
           fields)
      buffer = Ok data.
Proof.
  induction fields as [|f fields IH]; intros buffer rest Hdata Hc Hstart Hgaps Hlen.
  - simpl in *. destruct rest; [|unfold len in Hlen; simpl in Hlen; lia].
    now rewrite Hdata, app_nil_r.
  - apply Forall_cons_iff in Hc. destruct Hc as [Hcf Hcrest].
    destruct (starts_at_next Hgaps) as [Hnext Hrest].
    simpl in Hstart, Hlen.
    pose proof (sum_of_sizes_nonneg Hcrest) as Hnn.
    destruct Hcf as [Hsize Hoff].
    set (n := Z.to_nat (Field.size f)).
    assert (Hsplit : rest = firstn n rest ++ skipn n rest)
      by (symmetry; apply firstn_skipn).
    assert (Hmid : List.length (firstn n rest) = n).
    { apply firstn_length_le. unfold len in Hlen. lia. }
    assert (Hmidlen : len (firstn n rest) = Field.size f)
      by (unfold len; rewrite Hmid; unfold n; lia).
    assert (Hvalue :
      BigEndian.bytes_to_int data (Field.offset f) (Field.size f) =
      BigEndian.from_bytes (firstn n rest)).
    { unfold BigEndian.bytes_to_int. rewrite Hstart, <- Hmidlen.
      replace data with (buffer ++ firstn n rest ++ skipn n rest)
        by (now rewrite firstn_skipn).
      now rewrite slice_middle. }
    cbn [map PacketHeader.as_bytes_loop int_to_bytes BigEndian.codec].
    cbn [Field.value Field.offset Field.size Field.set_value].
    rewrite Hvalue.
    pose proof (from_bytes_bound (firstn n rest)) as Hbound.
    rewrite Hmidlen in Hbound.
    pose proof (@int_to_bytes_appends
                  (Field.set_value f (BigEndian.from_bytes (firstn n rest)))
                  buffer (conj Hsize Hoff) Hbound Hstart) as Happ.
    unfold wire in Happ.
    cbn [Field.value Field.offset Field.size Field.set_value] in Happ.
    fold n in Happ.
    pose proof (digits_from_bytes (firstn n rest)) as Hw.
    rewrite Hmid in Hw. rewrite Hw in Happ.
    rewrite Happ. cbn [bind].
    apply (IH (buffer ++ firstn n rest) (skipn n rest)).
    + rewrite <- app_assoc, <- Hsplit. exact Hdata.
    + exact Hcrest.
    + now rewrite len_app, Hmidlen, <- Hstart.
    + exact Hrest.
    + assert (Hl : len rest = len (firstn n rest) + len (skipn n rest))
        by (rewrite <- len_app, <- Hsplit; reflexivity).
      lia.
Qed.

(** X16: with the big-endian codec, on a header whose fields tile the buffer
    (the first field at offset 0 and [is_continuous] true), [parse] of a
    buffer of the size of the header followed by [as_bytes] gives the buffer
    back. *)
Theorem as_bytes_after_parse (self : PacketHeader.t) (data : list byte) :
  Forall constructible (PacketHeader.as_list self) ->
  starts_at 0 (PacketHeader.as_list self) ->
  PacketHeader.is_continuous self = true ->
  len data = PacketHeader.size self ->
  fst (@PacketHeader.parse BigEndian.codec data self) = Ok tt /\
  @PacketHeader.as_bytes BigEndian.codec
    (snd (@PacketHeader.parse BigEndian.codec data self)) = Ok data.
Proof.
  intros Hc Hstart Hcont Hlen.
  apply is_continuous_loop_spec in Hcont.
  assert (Hsum : len data = sum_of_sizes (PacketHeader.as_list self)).
  { rewrite Hlen. unfold PacketHeader.size.
    rewrite fold_left_add_sizes. lia. }
  unfold PacketHeader.parse. apply Z.eqb_eq in Hlen. rewrite Hlen. simpl.
  split; [reflexivity|].
  unfold PacketHeader.as_bytes.
  rewrite (parse_fields_as_list BigEndian.codec).
  now apply (@as_bytes_loop_of_decoded data (PacketHeader.as_list self)
               [] data).
Qed.

Lemma as_bytes_after_parse_witness :
  let self :=
    header_of [F "operation" 0 1 0; F "data_length" 1 4 0;
               F "address" 5 2 0] in
  let data := [x0a; x00; x00; x01; x00; x12; x34] in
  Forall constructible (PacketHeader.as_list self) /\
  len data = PacketHeader.size self /\
  @PacketHeader.as_bytes BigEndian.codec
    (snd (@PacketHeader.parse BigEndian.codec data self)) = Ok data.
Proof.
  intros self data.
  assert (Hc : Forall constructible (PacketHeader.as_list self)).
  { repeat constructor; simpl; lia. }
  refine (conj Hc (conj eq_refl _)).
  exact (proj2 (@as_bytes_after_parse self data Hc eq_refl eq_refl eq_refl)).
Defined.

(** ** What every header keeps *)

Lemma same_layout_sorted (l1 l2 : list Field.t) :
  map Field.hash_key l1 = map Field.hash_key l2 ->
  Sorted offset_le l1 -> Sorted offset_le l2.
Proof.
  intros H Hs. revert l2 H.
  induction Hs as [|a l1 Hs IH Hhd]; intros [|a' l2] H; try discriminate.
  - constructor.
  - assert (Ha : Field.hash_key a = Field.hash_key a')
      by (simpl in H; congruence).
    assert (Ht : map Field.hash_key l1 = map Field.hash_key l2)
      by (simpl in H; congruence).
    constructor; [now apply IH|].
    destruct Hhd as [|b l1' Hab]; destruct l2 as [|b' l2'];
      try discriminate; constructor.
    assert (Hb : Field.hash_key b = Field.hash_key b')
      by (simpl in Ht; congruence).
    unfold Field.hash_key in Ha, Hb.
    injection Ha as _ Hoa _. injection Hb as _ Hob _.
    unfold offset_le in *. lia.
Qed.

Lemma dict_getitem_key_name (d : odict) (key : string) (field : Field.t) :
  keys_are_names d -> dict_getitem d key = Ok field ->
  Field.name field = key.
Proof.
  unfold keys_are_names.
  induction 1 as [|[k w] rest Hk _ IH]; simpl; [discriminate|].
  destruct (String.eqb key k) eqn:E; [|exact IH].
  intros H. inversion H; subst. apply String.eqb_eq in E.
  simpl in Hk. congruence.
Qed.

Lemma dict_getitem_Ok_present (d : odict) (key : string) (field : Field.t) :
  dict_getitem d key = Ok field ->
  existsb (String.eqb key) (map fst d) = true.
Proof.
  induction d as [|[k w] rest IH]; simpl; [discriminate|].
  destruct (String.eqb key k); [reflexivity|exact IH].
Qed.

(** The three facts that every method keeps. *)
Lemma invariant_same_keys_layout (h1 h2 : PacketHeader.t) :
  map fst h2 = map fst h1 -> layout h2 = layout h1 ->
  unique_keys h1 /\ keys_are_names h1 /\
  Sorted offset_le (PacketHeader.as_list h1) ->
  unique_keys h2 /\ keys_are_names h2 /\
  Sorted offset_le (PacketHeader.as_list h2).
Proof.
  intros Hk Hl (Hu & Hn & Hs). split; [|split].
  - unfold unique_keys. now rewrite Hk.
  - unfold keys_are_names, layout, PacketHeader.as_list in *.
    revert h2 Hk Hl. clear Hu Hs.
    induction Hn as [|[k w] r1 Hkw _ IH]; intros [|[k' w'] r2] Hk Hl;
      try discriminate; constructor.
    + simpl in *. unfold Field.hash_key in Hl. congruence.
    + apply IH; simpl in *; congruence.
  - apply (@same_layout_sorted (PacketHeader.as_list h1)); [|exact Hs].
    symmetry. exact Hl.
Qed.

(** X17: whatever sequence of [add_field], [add], [parse] and [__setitem__]
    calls a header went through, raising or not, its names are pairwise
    different, every field is stored under its own name, and the fields are
    in ascending offset order. *)
Theorem reachable_invariant (codec : Codec) (self : PacketHeader.t) :
  reachable codec self ->
  unique_keys self /\ keys_are_names self /\
  Sorted offset_le (PacketHeader.as_list self).
Proof.
  assert (Hadd : forall field h,
    unique_keys h /\ keys_are_names h /\
    Sorted offset_le (PacketHeader.as_list h) ->
    unique_keys (snd (PacketHeader.add_field field h)) /\
    keys_are_names (snd (PacketHeader.add_field field h)) /\
    Sorted offset_le (PacketHeader.as_list (snd (PacketHeader.add_field field h)))).
  { intros field h (Hu & Hn & _). split; [|split].
    - now apply add_field_unique.
    - now apply add_field_keys_are_names.
    - apply add_field_sorted. }
  induction 1 as [|field h _ IH|name offset size value h _ IH
                  |data h _ IH|name value h _ IH].
  - split; [constructor|]. split; constructor.
  - now apply Hadd.
  - unfold PacketHeader.add.
    destruct (Field.new name offset size value); [now apply Hadd|exact IH].
  - unfold PacketHeader.parse.
    destruct (negb (len data =? PacketHeader.size h)); [exact IH|].
    simpl. apply (@invariant_same_keys_layout h); [| |exact IH].
    + apply parse_fields_keys.
    + apply parse_fields_layout.
  - unfold PacketHeader.__setitem__.
    destruct (negb (existsb (String.eqb name) (PacketHeader.names h)));
      [exact IH|].
    destruct (dict_getitem h name) as [field|e] eqn:E; [|exact IH].
    simpl. apply (@invariant_same_keys_layout h); [| |exact IH].
    + rewrite dict_setitem_keys.
      now rewrite (dict_getitem_Ok_present h name E).
    + now apply dict_setitem_layout.
Qed.

Lemma reachable_invariant_witness :
  let self :=
    snd (@PacketHeader.parse BigEndian.codec [x09; x12; x34]
           (snd (PacketHeader.add "address" 1 2 0
                   (snd (PacketHeader.add_field (F "operation" 0 1 0) []))))) in
  reachable BigEndian.codec self /\
  self = header_of [F "operation" 0 1 9; F "address" 1 2 0x1234] /\
  Sorted offset_le (PacketHeader.as_list self).
Proof.
  intros self.
  assert (Hr : reachable BigEndian.codec self).
  { apply reachable_parse, reachable_add, reachable_add_field,
      reachable_empty. }
  refine (conj Hr (conj eq_refl _)).
  exact (proj2 (proj2 (reachable_invariant Hr))).
Defined.

(** ** The size after [add_field] *)

Lemma sum_of_sizes_perm (l l' : list Field.t) :
  Permutation l l' -> sum_of_sizes l = sum_of_sizes l'.
Proof.
  induction 1; simpl; lia.
Qed.

(** X18: adding a field under a name that the header does not have makes
    [size] grow by the size of the field, wherever the sort puts the field
    and whether the overlap check raises or not. *)
Theorem add_field_size (self : PacketHeader.t) (field : Field.t) :
  PacketHeader.__contains__ self (PyStr (Field.name field)) = false ->
  PacketHeader.size (snd (PacketHeader.add_field field self)) =
  PacketHeader.size self + Field.size field.
Proof.
  intros Hnew. rewrite add_field_unfold. simpl.
  assert (Hnot : ~ In (Field.name field) (map fst self)).
  { intros Hin. apply dict_contains_str in Hin.
    unfold PacketHeader.__contains__ in Hnew. congruence. }
  rewrite (@dict_setitem_fresh self (Field.name field) field Hnot).
  unfold PacketHeader.size. rewrite !fold_left_add_sizes.
  unfold PacketHeader.as_list.
  rewrite <- (sum_of_sizes_perm
                (Permutation_map snd
                   (sorted_by_offset_perm
                      (self ++ [(Field.name field, field)])))).
  rewrite map_app. simpl.
  assert (Hsum : forall l l', sum_of_sizes (l ++ l') =
                              sum_of_sizes l + sum_of_sizes l').
  { induction l as [|x l IHl]; simpl; intros l'; [reflexivity|].
    rewrite IHl. lia. }
  rewrite Hsum. simpl. lia.
Qed.

Lemma add_field_size_witness :
  let self := header_of [F "operation" 0 1 0; F "address" 5 2 0] in
  PacketHeader.size (snd (PacketHeader.add_field (F "data_length" 1 4 0) self))
  = 3 + 4.
Proof.
  intros self.
  exact (@add_field_size self (F "data_length" 1 4 0) eq_refl).
Defined.

(** ** Size and continuity, in offset order *)

(** Every header that a program can hold lists its fields in ascending
    offset order. *)
Lemma reachable_sorted (codec : Codec) (self : PacketHeader.t) :
  reachable codec self -> Sorted offset_le (PacketHeader.as_list self).
Proof.
  induction 1 as [|field h _ IH|name offset size value h _ IH
                  |data h _ IH|name value h _ IH].
  - constructor.
  - apply add_field_sorted.
  - unfold PacketHeader.add.
    destruct (Field.new name offset size value);
      [apply add_field_sorted|exact IH].
  - unfold PacketHeader.parse.
    destruct (negb (len data =? PacketHeader.size h)); [exact IH|].
    simpl. apply (@same_layout_sorted (PacketHeader.as_list h)); [|exact IH].
    symmetry. apply (parse_fields_layout codec).
  - unfold PacketHeader.__setitem__.
    destruct (negb (existsb (String.eqb name) (PacketHeader.names h)));
      [exact IH|].
    destruct (dict_getitem h name) as [field|e] eqn:E; [|exact IH].
    simpl. apply (@same_layout_sorted (PacketHeader.as_list h)); [|exact IH].
    symmetry. now apply dict_setitem_layout.
Qed.

(** Fields of pairwise different offsets have one offset order only. *)
Lemma offset_order_unique (l l' : list Field.t) :
  Permutation l l' -> StronglySorted offset_lt l -> Sorted offset_le l' ->
  l = l'.
Proof.
  revert l'. induction l as [|a r IH]; intros l' Hp Hs Hs'.
  - apply Permutation_nil in Hp. now subst.
  - destruct l' as [|b r'].
    { apply Permutation_sym, Permutation_nil in Hp. discriminate. }
    inversion Hs as [|? ? Hsr Hall]; subst.
    apply (Sorted_StronglySorted offset_le_trans) in Hs'.
    inversion Hs' as [|? ? Hsr' Hall']; subst.
    assert (Hba : b = a).
    { assert (Hb : In b (a :: r))
        by (eapply Permutation_in; [apply Permutation_sym, Hp|now left]).
      destruct Hb as [Heq|Hb]; [now subst|].
      rewrite Forall_forall in Hall. specialize (Hall b Hb).
      assert (Ha : In a (b :: r'))
        by (eapply Permutation_in; [exact Hp|now left]).
      destruct Ha as [Heq|Ha]; [now subst|].
      rewrite Forall_forall in Hall'. specialize (Hall' a Ha).
      unfold offset_lt, offset_le in *. lia. }
    subst b. f_equal. apply IH.
    + now apply Permutation_cons_inv in Hp.
    + exact Hsr.
    + now apply StronglySorted_Sorted.
Qed.

(** C8: the size of a header is the sum of the sizes of its fields, and
    [is_continuous] holds iff the end of every listed field plus one is the
    offset of the field listed next; every header that a program can hold
    lists its fields in ascending offset order, so that these pairs are the
    adjacent pairs in offset order, and when the offsets are pairwise
    different [is_continuous] holds iff the same is true of the pairs of the
    fields put in offset order in any way.  The header built from (a,0,4) and
    (b,4,1) is continuous and has size 5, the one built from (a,0,4) and
    (b,5,1) is not continuous, and the one built from (b,6,1) and then
    (a,2,4) lists a before b, is continuous and has size 5. *)
Theorem size_and_continuity :
  (forall self : PacketHeader.t,
      PacketHeader.size self = sum_of_sizes (PacketHeader.as_list self) /\
      (PacketHeader.is_continuous self = true <->
       adjacent_pairs ends_right_before (PacketHeader.as_list self)))
  /\
  (forall (codec : Codec) (self : PacketHeader.t),
      reachable codec self ->
      Sorted offset_le (PacketHeader.as_list self) /\
      forall in_offset_order : list Field.t,
        Permutation in_offset_order (PacketHeader.as_list self) ->
        StronglySorted offset_lt in_offset_order ->
        (PacketHeader.is_continuous self = true <->
         adjacent_pairs ends_right_before in_offset_order))
  /\
  (exists self : PacketHeader.t,
      PacketHeader.new [F "a" 0 4 0; F "b" 4 1 0] = Ok self /\
      PacketHeader.is_continuous self = true /\
      PacketHeader.size self = 5)
  /\
  (exists self : PacketHeader.t,
      PacketHeader.new [F "a" 0 4 0; F "b" 5 1 0] = Ok self /\
      PacketHeader.is_continuous self = false)
  /\
  (exists self : PacketHeader.t,
      PacketHeader.new [F "b" 6 1 0; F "a" 2 4 0] = Ok self /\
      PacketHeader.as_list self = [F "a" 2 4 0; F "b" 6 1 0] /\
      PacketHeader.is_continuous self = true /\
      PacketHeader.size self = 5).
Proof.
  assert (Hall : forall self : PacketHeader.t,
    PacketHeader.size self = sum_of_sizes (PacketHeader.as_list self) /\
    (PacketHeader.is_continuous self = true <->
     adjacent_pairs ends_right_before (PacketHeader.as_list self))).
  { intros self. split.
    - unfold PacketHeader.size. now rewrite fold_left_add_sizes.
    - apply is_continuous_loop_spec. }
  split; [exact Hall|]. split; [|split; [|split]].
  - intros codec self Hr. pose proof (reachable_sorted Hr) as Hs.
    split; [exact Hs|]. intros l Hp Hl.
    rewrite (offset_order_unique Hp Hl Hs). apply Hall.
  - eexists. split; [reflexivity|]. split; reflexivity.
  - eexists. split; reflexivity.
  - eexists. split; [reflexivity|]. repeat split; reflexivity.
Qed.

(** The header left by adding (b,6,1) and then (a,2,4): a program can hold
    it, the two fields in offset order are a and then b, and the end of a
    plus one is the offset of b. *)
Lemma size_and_continuity_witness :
  let self :=
    snd (PacketHeader.add_field (F "a" 2 4 0)
           (snd (PacketHeader.add_field (F "b" 6 1 0) []))) in
  reachable BigEndian.codec self /\
  Permutation [F "a" 2 4 0; F "b" 6 1 0] (PacketHeader.as_list self) /\
  StronglySorted offset_lt [F "a" 2 4 0; F "b" 6 1 0] /\
  Sorted offset_le (PacketHeader.as_list self) /\
  adjacent_pairs ends_right_before [F "a" 2 4 0; F "b" 6 1 0].
Proof.
  intros self.
  assert (Hr : reachable BigEndian.codec self).
  { apply reachable_add_field, reachable_add_field, reachable_empty. }
  assert (Hp : Permutation [F "a" 2 4 0; F "b" 6 1 0]
                 (PacketHeader.as_list self)) by apply Permutation_refl.
  assert (Hl : StronglySorted offset_lt [F "a" 2 4 0; F "b" 6 1 0]).
  { repeat constructor. }
  destruct size_and_continuity as (_ & Hreach & _).
  destruct (Hreach BigEndian.codec self Hr) as [Hs Horder].
  refine (conj Hr (conj Hp (conj Hl (conj Hs _)))).
  apply (Horder _ Hp Hl). reflexivity.
Defined.
